(** * Mozart style checker: an embedding of [music_checker.py] and
    [music_checker_smt.py]

    The two Python files define the same class [MozartChecker] twice: the
    first evaluates the voice-leading and harmony rules directly on the
    extracted facts, the second builds Z3 formulas and asks the solver.

    Conventions of the embedding:
    - MIDI pitches are Python [int]s, here [Z];
    - [quarterLength] is a float or a [Fraction]; the code only compares it
      with the constants [1.0] and [0.25], both exact, so it is a [Q];
    - a Python [set] of ints is a [gset Z];
    - f-strings print integers in decimal, here stdpp's [pretty];
    - the calls into music21 ([score.parts], [score.analyze('key')],
      the measure traversal) are the fields of the record [Score]; each of
      them either yields its value or raises an exception, of which only
      the message [str(e)] is observable by the checker;
    - the Z3 terms the code builds are the syntax trees [term] and
      [formula]; [Solver.check] is a parameter of the SMT variant;
    - [print] calls and the JSON report of [analyze_mozart_works] are not
      modelled. *)

From Stdlib Require Import ZArith QArith Lia Ascii.
From stdpp Require Import base tactics option list numbers strings pretty
  gmap sorting.

Local Open Scope Z_scope.

(** ** Exceptions *)

(** The outcome of a Python call: a value, or an exception with message
    [str(e)]. *)
Inductive outcome (A : Type) : Type :=
  | Return (a : A)
  | Raise (msg : string).
Arguments Return {A} a.
Arguments Raise {A} msg.

(** ** Scores as the checker sees them *)

(** What [getElementsByClass(['Note', 'Chord'])] yields. *)
Inductive event : Type :=
  | Note (midi : Z) (quarterLength : Q)
  | Chord (pitches : list Z) (quarterLength : Q).

Record Score : Type := mkScore {
  (** [score.parts], each part already flattened by
      [part.recurse().getElementsByClass(['Note', 'Chord'])] *)
  parts : outcome (list (list event));
  (** [score.analyze('key').tonic.midi] *)
  analyze_key : outcome Z;
  (** [score.recurse().getElementsByClass('Measure')], each measure as the
      pitch lists of [measure.getElementsByClass(['Chord'])] *)
  measures : outcome (list (list (list Z)))
}.

(** ** Z3 syntax trees *)

Inductive term : Type :=
  | IntVar (name : string)          (* Int(name) *)
  | IntVal (n : Z)                  (* a Python int cast by z3 *)
  | Sub (a b : term)                (* a - b *)
  | Abs (a : term)                  (* Abs(a) *)
  | Mod (a b : term).               (* a % b *)

Inductive formula : Type :=
  | BoolVar (name : string)         (* Bool(name) *)
  | BoolVal (b : bool)              (* a Python bool cast by z3 *)
  | EqI (a b : term)                (* a == b on integers *)
  | LeI (a b : term)                (* a <= b *)
  | EqB (p q : formula)             (* p == q on Booleans *)
  | FOr (p q : formula)
  | FAnd (p q : formula)
  | FNot (p : formula).

(** [Or(p, q, r)] and [Or(p, q, r, s)] *)
Definition Or3 (p q r : formula) : formula := FOr p (FOr q r).
Definition Or4 (p q r s : formula) : formula := FOr p (FOr q (FOr r s)).

Global Instance term_eq_dec : EqDecision term.
Proof. solve_decision. Defined.
Global Instance formula_eq_dec : EqDecision formula.
Proof. solve_decision. Defined.

(** An interpretation gives every integer constant and every Boolean
    constant a value; constants of different sorts never clash. *)
Record interp : Type := mkInterp {
  ival : string → Z;
  bval : string → bool
}.

Fixpoint eval_term (m : interp) (t : term) : Z :=
  match t with
  | IntVar x => ival m x
  | IntVal n => n
  | Sub a b => eval_term m a - eval_term m b
  | Abs a => Z.abs (eval_term m a)
  | Mod a b => eval_term m a `mod` eval_term m b
  end.

Fixpoint eval (m : interp) (f : formula) : bool :=
  match f with
  | BoolVar x => bval m x
  | BoolVal b => b
  | EqI a b => bool_decide (eval_term m a = eval_term m b)
  | LeI a b => bool_decide (eval_term m a ≤ eval_term m b)
  | EqB p q => Bool.eqb (eval m p) (eval m q)
  | FOr p q => eval m p || eval m q
  | FAnd p q => eval m p && eval m q
  | FNot p => negb (eval m p)
  end.

Definition satisfiable (s : list formula) : Prop :=
  ∃ m, Forall (λ f, eval m f = true) s.

Inductive CheckSatResult : Type := sat | unsat | unknown.

Global Instance CheckSatResult_eq_dec : EqDecision CheckSatResult.
Proof. solve_decision. Defined.

(** ** Strings *)

(** Python's [needle in hay] on strings. *)
Fixpoint str_in (needle hay : string) : bool :=
  String.prefix needle hay ||
  match hay with
  | EmptyString => false
  | String _ hay' => str_in needle hay'
  end.

(** [name.split(sep)[-1]]: what follows the last [sep], the whole string
    when there is none. *)
Fixpoint split_last (sep : Ascii.ascii) (name : string) : string :=
  match name with
  | EmptyString => EmptyString
  | String c rest =>
      if str_in (String sep EmptyString) rest then split_last sep rest
      else if bool_decide (c = sep) then rest
      else name
  end.

(** Every character of a string satisfies [P]; the decimal digits. *)
Fixpoint str_forall (P : ascii → Prop) (s : string) : Prop :=
  match s with
  | EmptyString => True
  | String c s' => P c ∧ str_forall P s'
  end.

Definition is_digit (c : ascii) : Prop :=
  ∃ d : N, (d < 10)%N ∧ c = pretty_N_char d.

(** ** Facts shared by the two variants *)

(** [extract_voice_pairs] is the same text in both files. *)

(** One event's contribution to [notes]. *)
Definition effective_notes (note_or_chord : event) : list (Z * Q) :=
  match note_or_chord with
  | Note midi duration => [(midi, duration)]
  | Chord ps duration =>
      let pitches := merge_sort Z.le ps in
      if bool_decide (1 < length pitches)%nat
      then [(default 0 (head pitches), duration);
            (default 0 (last pitches), duration)]
      else []
  end.

Definition part_notes (part : list event) : list (Z * Q) :=
  mjoin (effective_notes <$> part).

(** [for i in range(len(notes) - 1)] *)
Definition part_pairs (notes : list (Z * Q)) : list (Z * Z * Q) :=
  (λ i : nat,
     let n := default (0, 0%Q) (notes !! i) in
     let n' := default (0, 0%Q) (notes !! S i) in
     (n.1, n'.1, n.2)) <$> seq 0 (length notes - 1).

Definition extract_voice_pairs (score : Score) : outcome (list (Z * Z * Q)) :=
  match parts score with
  | Raise e => Raise e
  | Return ps => Return (mjoin ((part_pairs ∘ part_notes) <$> ps))
  end.

(** [{p.midi % 12 for p in chord_event.pitches}] for every chord of every
    measure, empty sets dropped. *)
Definition chord_pcs_of (pitches : list Z) : gset Z :=
  list_to_set ((λ p, p `mod` 12) <$> pitches).

Definition vertical_sonorities (ms : list (list (list Z))) : list (gset Z) :=
  filter (λ pcs, pcs ≠ ∅) (chord_pcs_of <$> mjoin ms).

Definition dur_ge_1 (duration : Q) : bool := Qle_bool 1 duration.
Definition dur_lt_quarter (duration : Q) : bool :=
  negb (Qle_bool (1 # 4) duration).

Definition leap_message (interval : Z) (position : string) : string :=
  "Unusual leap (" +:+ pretty interval +:+ " semitones) at position "
    +:+ position.

Definition dissonance_message (measure : nat) : string :=
  "Highly unusual dissonance in measure " +:+ pretty measure.

Definition error_message (e : string) : string := "Analysis error: " +:+ e.

Definition violation_threshold : nat := 3.

(** ** The direct checker, [music_checker.py] *)

Module Direct.

(** [self.solver], created once by [__init__]: the assertions added so
    far. *)
Record MozartChecker : Type := mkChecker { solver : list formula }.

(** [MozartChecker()] *)
Definition init : MozartChecker := mkChecker [].

(** A method: it may change [self] and it returns or raises. *)
Definition M (A : Type) : Type := MozartChecker → outcome A * MozartChecker.

Definition ret {A} (a : A) : M A := λ self, (Return a, self).
Definition raise {A} (e : string) : M A := λ self, (Raise e, self).
Definition bind {A B} (c : M A) (k : A → M B) : M B :=
  λ self,
    match c self with
    | (Return a, self') => k a self'
    | (Raise e, self') => (Raise e, self')
    end.
Definition lift {A} (o : outcome A) : M A := λ self, (o, self).
(** [try: c  except Exception as e: h(str(e))] *)
Definition try_except {A} (c : M A) (h : string → M A) : M A :=
  λ self,
    match c self with
    | (Return a, self') => (Return a, self')
    | (Raise e, self') => h e self'
    end.

Notation "'let*' x ':=' c 'in' k" := (bind c (λ x, k))
  (at level 10, x name, c at level 100, k at level 200).

Definition common_arpeggio_intervals : gset Z := {[ 12; 19; 24; 28; 31 ]}.
Definition dramatic_intervals : gset Z := {[ 29; 31; 36; 41 ]}.

Definition is_arpeggiation_pattern (note1 note2 : Z) : bool :=
  let interval := Z.abs (note2 - note1) in
  bool_decide (interval ∈ common_arpeggio_intervals).

Definition is_dramatic_gesture (interval : Z) : bool :=
  bool_decide (interval ∈ dramatic_intervals).

(** The two [self.solver.add] calls of one iteration. *)
Definition note_assertions (i : nat) (note1 note2 : Z) : list formula :=
  [ EqI (IntVar ("note_" +:+ pretty i +:+ "_1")) (IntVal note1);
    EqI (IntVar ("note_" +:+ pretty i +:+ "_2")) (IntVal note2) ].

(** The rest of one iteration: [None] for the three [continue]s and for a
    leap within [max_leap], the appended string otherwise. *)
Definition leap_diagnostic (i : nat) (fact : Z * Z * Q) : option string :=
  let '(note1, note2, duration) := fact in
  let interval := Z.abs (note2 - note1) in
  let max_leap := if dur_ge_1 duration then 19 else 24 in
  if bool_decide (max_leap < interval) then
    if is_arpeggiation_pattern note1 note2 then None
    else if is_dramatic_gesture interval then None
    else if dur_lt_quarter duration then None
    else Some (leap_message interval (pretty i))
  else None.

(** [for i, (note1, note2, duration) in enumerate(voice_pairs)], from
    index [i] on, with the solver and the violations so far. *)
Fixpoint check_voice_leading_loop (i : nat) (voice_pairs : list (Z * Z * Q))
    (slv : list formula) (violations : list string)
    : list formula * list string :=
  match voice_pairs with
  | [] => (slv, violations)
  | (note1, note2, duration) :: rest =>
      let slv := slv ++ note_assertions i note1 note2 in
      let violations :=
        match leap_diagnostic i (note1, note2, duration) with
        | Some v => violations ++ [v]
        | None => violations
        end in
      check_voice_leading_loop (S i) rest slv violations
  end.

Definition check_voice_leading (voice_pairs : list (Z * Z * Q))
    : M (list string) :=
  λ self,
    let '(slv, violations) :=
      check_voice_leading_loop 0 voice_pairs (solver self) [] in
    (Return violations, mkChecker slv).

(** [allowed_pcs]: built in every iteration and never read. *)
Definition allowed_pcs (tonic_pc : Z) : gset Z :=
  list_to_set ((λ k, (tonic_pc + k) `mod` 12) <$>
               [0; 1; 2; 3; 4; 5; 6; 7; 8; 9; 10; 11]).

(** [{(b - a) % 12 for a in chord_pcs for b in chord_pcs if b > a}] *)
Definition intervals (chord_pcs : gset Z) : gset Z :=
  list_to_set (a ← elements chord_pcs; b ← elements chord_pcs;
               if bool_decide (a < b) then [(b - a) `mod` 12] else []).

Definition harsh (chord_pcs : gset Z) : bool :=
  bool_decide (3 ≤ size chord_pcs)%nat &&
  (bool_decide (1 ∈ intervals chord_pcs) &&
   bool_decide (6 ∈ intervals chord_pcs) &&
   bool_decide (10 ∈ intervals chord_pcs)).

Fixpoint check_harmony_loop (tonic_pc : Z) (i : nat) (chords : list (gset Z))
    (violations : list string) : list string :=
  match chords with
  | [] => violations
  | chord_pcs :: rest =>
      let allowed := allowed_pcs tonic_pc in
      let violations :=
        if harsh chord_pcs then violations ++ [dissonance_message i]
        else violations in
      check_harmony_loop tonic_pc (S i) rest violations
  end.

Definition check_harmony (score : Score) : M (list string) :=
  let* key_tonic := lift (analyze_key score) in
  let tonic_pc := key_tonic `mod` 12 in
  let* ms := lift (measures score) in
  let chords := vertical_sonorities ms in
  ret (check_harmony_loop tonic_pc 0 chords []).

Definition significant (v : string) : bool :=
  (str_in "Unusual leap" v && str_in "position" v)
  || str_in "Highly unusual dissonance" v.

(** The body of the [try]. *)
Definition analysis (score : Score) : M (bool * list string) :=
  let* voice_pairs := lift (extract_voice_pairs score) in
  let* voice_leading_violations := check_voice_leading voice_pairs in
  let* harmonic_violations := check_harmony score in
  let violations := voice_leading_violations ++ harmonic_violations in
  let significant_violations := filter (λ v, significant v = true) violations in
  ret (bool_decide (length significant_violations ≤ violation_threshold)%nat,
       significant_violations).

Definition verify_piece (score : Score) : M (bool * list string) :=
  try_except (analysis score) (λ e, ret (false, [error_message e])).

End Direct.

(** ** The SMT checker, [music_checker_smt.py] *)

Module SMT.

(** [AstRef.__bool__] of z3py, which Python calls on the operands of [and]
    and on the condition of an [if]: the two Boolean literals are
    themselves, an equation is true when its two sides are the same tree,
    anything else raises. *)
Definition ast_bool (f : formula) : outcome bool :=
  match f with
  | BoolVal b => Return b
  | EqI a b => Return (bool_decide (a = b))
  | EqB p q => Return (bool_decide (p = q))
  | _ => Raise "Symbolic expressions cannot be cast to concrete Boolean values."
  end.

(** [x and y]: [y] is looked at only when [x] is true. *)
Definition py_and (x y : outcome bool) : outcome bool :=
  match x with
  | Return true => y
  | _ => x
  end.

Definition arpeggio_context_intervals : gset Z := {[ 12; 19; 24 ]}.

Definition is_arpeggiation_context (note1 note2 : Z) : bool :=
  let interval := Z.abs (note2 - note1) in
  bool_decide (interval ∈ arpeggio_context_intervals).

Definition is_dramatic_gesture_formula (interval_var : term) : formula :=
  Or4 (EqI interval_var (IntVal 29)) (EqI interval_var (IntVal 31))
      (EqI interval_var (IntVal 36)) (EqI interval_var (IntVal 41)).

Definition acceptable_intervals (interval_var : term)
    (note1 note2 : Z) (duration : Q) : formula :=
  if dur_ge_1 duration then
    Or3 (LeI interval_var (IntVal 12))
        (EqI interval_var (IntVal 19))
        (FAnd (EqI interval_var (IntVal 24))
              (BoolVal (is_arpeggiation_context note1 note2)))
  else
    Or3 (LeI interval_var (IntVal 24))
        (EqI interval_var (IntVal 31))
        (is_dramatic_gesture_formula interval_var).

Definition note_name (idx : string) (k : string) : string :=
  "note_" +:+ idx +:+ "_" +:+ k.
Definition interval_name (i : nat) : string := "interval_" +:+ pretty i.
Definition voice_leading_name (i : nat) : string :=
  "voice_leading_" +:+ pretty i.

(** The four [s.add] calls of iteration [i]. *)
Definition voice_leading_assertions (i : nat) (fact : Z * Z * Q)
    : list formula :=
  let '(note1, note2, duration) := fact in
  let n1 := IntVar (note_name (pretty i) "1") in
  let n2 := IntVar (note_name (pretty i) "2") in
  let interval_var := IntVar (interval_name i) in
  let leap_constraint := BoolVar (voice_leading_name i) in
  [ EqI n1 (IntVal note1);
    EqI n2 (IntVal note2);
    EqI interval_var (Abs (Sub n2 n1));
    EqB leap_constraint
        (acceptable_intervals interval_var note1 note2 duration) ].

(** An entry of [constraint_data]. *)
Definition datum : Type := string * formula * Z * Z * term.

Definition voice_leading_datum (i : nat) (fact : Z * Z * Q) : datum :=
  let '(note1, note2, duration) := fact in
  (voice_leading_name i, BoolVar (voice_leading_name i), note1, note2,
   IntVar (interval_name i)).

Fixpoint build_voice_leading (i : nat) (voice_pairs : list (Z * Z * Q))
    (s : list formula) (constraint_data : list datum)
    : list formula * list datum :=
  match voice_pairs with
  | [] => (s, constraint_data)
  | fact :: rest =>
      build_voice_leading (S i) rest
        (s ++ voice_leading_assertions i fact)
        (constraint_data ++ [voice_leading_datum i fact])
  end.

Definition pc_name (i j : nat) : string :=
  "chord_" +:+ pretty i +:+ "_pc_" +:+ pretty j.
Definition pair_interval_name (i a_idx b_idx : nat) : string :=
  "interval_" +:+ pretty i +:+ "_" +:+ pretty a_idx +:+ "_" +:+ pretty b_idx.
Definition harmony_name (i : nat) : string := "harmony_" +:+ pretty i.

(** [interval_var == 1 and interval_var == 6 and interval_var == 10] as
    the condition of an [if]. *)
Definition harsh_test (interval_var : term) : outcome bool :=
  py_and (ast_bool (EqI interval_var (IntVal 1)))
    (py_and (ast_bool (EqI interval_var (IntVal 6)))
            (ast_bool (EqI interval_var (IntVal 10)))).

(** The index pairs the two nested [enumerate] loops reach the body
    with, in the order they reach it. *)
Definition index_pairs (chord_vars : list term)
    : list (nat * term * (nat * term)) :=
  a ← imap pair chord_vars; b ← imap pair chord_vars;
  if bool_decide (a.1 < b.1)%nat then [(a, b)] else [].

Fixpoint interval_loop (i : nat) (todo : list (nat * term * (nat * term)))
    (s : list formula) (harsh_dissonance : bool)
    : outcome (list formula * bool) :=
  match todo with
  | [] => Return (s, harsh_dissonance)
  | ((a_idx, a), (b_idx, b)) :: rest =>
      let interval_var := IntVar (pair_interval_name i a_idx b_idx) in
      let s := s ++ [EqI interval_var (Mod (Sub b a) (IntVal 12))] in
      match harsh_test interval_var with
      | Raise e => Raise e
      | Return true => interval_loop i rest s true
      | Return false => interval_loop i rest s harsh_dissonance
      end
  end.

Definition pc_assertions (i : nat) (pcs : list Z) : list formula :=
  imap (λ j pc, EqI (IntVar (pc_name i j)) (IntVal pc)) pcs.
Definition chord_vars_of (i : nat) (pcs : list Z) : list term :=
  imap (λ j _, IntVar (pc_name i j)) pcs.

Fixpoint build_harmony (i : nat) (chords : list (gset Z))
    (s : list formula) (constraint_data : list (string * formula * nat))
    : outcome (list formula * list (string * formula * nat)) :=
  match chords with
  | [] => Return (s, constraint_data)
  | chord_pcs :: rest =>
      if bool_decide (size chord_pcs < 3)%nat
      then build_harmony (S i) rest s constraint_data
      else
        let harmony_constraint := BoolVar (harmony_name i) in
        let s := s ++ pc_assertions i (elements chord_pcs) in
        let chord_vars := chord_vars_of i (elements chord_pcs) in
        match interval_loop i (index_pairs chord_vars) s false with
        | Raise e => Raise e
        | Return (s, harsh_dissonance) =>
            build_harmony (S i) rest
              (s ++ [EqB harmony_constraint (FNot (BoolVal harsh_dissonance))])
              (constraint_data ++ [(harmony_name i, harmony_constraint, i)])
        end
  end.

Section with_solver.

(** [Solver.check] on the assertions of a solver. *)
Variable check : list formula → CheckSatResult.

(** One iteration of the loop under [if check_result == unsat]. *)
Definition isolate_leap (d : datum) : option string :=
  let '(name, constraint, note1, note2, interval_var) := d in
  let idx := split_last "_"%char name in
  let n1 := IntVar (note_name idx "1") in
  let n2 := IntVar (note_name idx "2") in
  let test_solver :=
    [ EqI n1 (IntVal note1);
      EqI n2 (IntVal note2);
      EqI interval_var (Abs (Sub n2 n1));
      FNot constraint ] in
  if decide (check test_solver = sat)
  then Some (leap_message (Z.abs (note2 - note1)) idx)
  else None.

Definition check_voice_leading (voice_pairs : list (Z * Z * Q)) : list string :=
  let '(s, constraint_data) := build_voice_leading 0 voice_pairs [] [] in
  let check_result := check s in
  if decide (check_result = unsat)
  then omap isolate_leap constraint_data
  else [].

Definition isolate_harmony (d : string * formula * nat) : option string :=
  let '(name, constraint, measure_idx) := d in
  let test_solver := [ FNot constraint ] in
  if decide (check test_solver = sat)
  then Some (dissonance_message measure_idx)
  else None.

Definition check_harmony (score : Score) : outcome (list string) :=
  match analyze_key score with
  | Raise e => Raise e
  | Return key_tonic =>
      let tonic_pc := key_tonic `mod` 12 in
      match measures score with
      | Raise e => Raise e
      | Return ms =>
          let chords := vertical_sonorities ms in
          match build_harmony 0 chords [] [] with
          | Raise e => Raise e
          | Return (s, constraint_data) =>
              let check_result := check s in
              if decide (check_result = unsat)
              then Return (omap isolate_harmony constraint_data)
              else Return []
          end
      end
  end.

(** The body of the [try]. *)
Definition analysis (score : Score) : outcome (bool * list string) :=
  match extract_voice_pairs score with
  | Raise e => Raise e
  | Return voice_pairs =>
      let voice_leading_violations := check_voice_leading voice_pairs in
      match check_harmony score with
      | Raise e => Raise e
      | Return harmonic_violations =>
          let violations := voice_leading_violations ++ harmonic_violations in
          Return (bool_decide (length violations ≤ violation_threshold)%nat,
                  violations)
      end
  end.

Definition verify_piece (score : Score) : bool * list string :=
  match analysis score with
  | Return r => r
  | Raise e => (false, [error_message e])
  end.

End with_solver.

End SMT.

(** ** The batch driver, [analyze_mozart_works] *)

(** The function is the same text in both files; only the class behind
    [checker] differs. The files found by the three [glob] calls are
    given with what music21 makes of each: [timestamp], the console output
    and the JSON dump of [results] are left out. *)
Record score_file : Type := mkFile {
  file_name : string;                        (* xml_file.name *)
  parse : outcome Score;                     (* converter.parse(str(xml_file)) *)
  key_label : string;                        (* str(key) *)
  getTimeSignatures : outcome (list string)  (* score.getTimeSignatures(), each as str *)
}.

(** An element of [results["analyses"]]. *)
Inductive analysis_entry : Type :=
  | Analysis (filename key time_signature : string) (n_measures : nat)
             (valid : bool) (violations : list string)
  | Error (filename error : string).

Record results : Type := mkResults {
  total_files : nat;
  valid_files : nat;
  files_with_violations : nat;
  analyses : list analysis_entry
}.

(** The entry a file leaves in [results["analyses"]], given the outcome of
    the [try] body. *)
Definition entry_of (xml_file : score_file) (o : outcome analysis_entry)
    : analysis_entry :=
  match o with
  | Return analysis => analysis
  | Raise e => Error (file_name xml_file) e
  end.

Section driver.

(** The checker: its state and its [verify_piece]. *)
Variable St : Type.
Variable verify : Score → St → outcome (bool * list string) * St.

(** The body of the [try], up to the construction of [analysis]. *)
Definition analyze_file (xml_file : score_file) (checker : St)
    : outcome analysis_entry * St :=
  match parse xml_file with
  | Raise e => (Raise e, checker)
  | Return score =>
      match analyze_key score with
      | Raise e => (Raise e, checker)
      | Return _ =>
          match getTimeSignatures xml_file with
          | Raise e => (Raise e, checker)
          | Return time_sigs =>
              let time_sig :=
                match time_sigs with t :: _ => t | [] => "None" end in
              match verify score checker with
              | (Raise e, checker) => (Raise e, checker)
              | (Return (is_valid, violations), checker) =>
                  match measures score with
                  | Raise e => (Raise e, checker)
                  | Return ms =>
                      (Return (Analysis (file_name xml_file)
                                 (key_label xml_file) time_sig (length ms)
                                 is_valid violations),
                       checker)
                  end
              end
          end
      end
  end.

Definition entry_valid (a : analysis_entry) : bool :=
  match a with
  | Analysis _ _ _ _ valid _ => valid
  | Error _ _ => false
  end.

(** [for xml_file in xml_files] *)
Fixpoint analyze_loop (xml_files : list score_file) (checker : St)
    (res : results) : results * St :=
  match xml_files with
  | [] => (res, checker)
  | xml_file :: rest =>
      match analyze_file xml_file checker with
      | (Return analysis, checker) =>
          let res :=
            if entry_valid analysis
            then mkResults (total_files res) (S (valid_files res))
                   (files_with_violations res) (analyses res ++ [analysis])
            else mkResults (total_files res) (valid_files res)
                   (S (files_with_violations res)) (analyses res ++ [analysis])
          in
          analyze_loop rest checker res
      | (Raise e, checker) =>
          analyze_loop rest checker
            (mkResults (total_files res) (valid_files res)
               (files_with_violations res)
               (analyses res ++ [Error (file_name xml_file) e]))
      end
  end.

(** The entries the loop appends, file by file. *)
Fixpoint loop_entries (xml_files : list score_file) (checker : St)
    : list analysis_entry :=
  match xml_files with
  | [] => []
  | f :: rest =>
      entry_of f (analyze_file f checker).1
      :: loop_entries rest (analyze_file f checker).2
  end.

Definition analyze_mozart_works (new_checker : St)
    (xml_files : list score_file) : results :=
  (analyze_loop xml_files new_checker
     (mkResults (length xml_files) 0 0 [])).1.

End driver.

Definition direct_analyze_mozart_works : list score_file → results :=
  analyze_mozart_works Direct.MozartChecker Direct.verify_piece Direct.init.


Definition is_error (a : analysis_entry) : bool :=
  match a with
  | Error _ _ => true
  | Analysis _ _ _ _ _ _ => false
  end.


(** Number of entries of a list that satisfy a test. *)
Definition count_entries (test : analysis_entry → bool)
    (l : list analysis_entry) : nat :=
  length (filter (λ a, test a = true) l).


(** ** What is assumed of Z3 *)

(** An [unsat] answer is never given for a satisfiable set of assertions.
    Nothing is assumed of [sat] and [unknown]. *)
Definition unsat_sound (check : list formula → CheckSatResult) : Prop :=
  ∀ s, check s = unsat → ¬ satisfiable s.

(** A small solver of that kind: it reads each [x == t] whose left side is
    a constant not met before as the definition of [x], and tests the
    assertions on the interpretation so obtained. *)
Record partial_interp : Type := mkPartial {
  pints : gmap string Z;
  pbools : gmap string bool
}.

Definition total (p : partial_interp) : interp :=
  mkInterp (λ x, default 0 (pints p !! x)) (λ x, default false (pbools p !! x)).

Definition learn (p : partial_interp) (f : formula) : partial_interp :=
  match f with
  | EqI (IntVar x) t =>
      match pints p !! x with
      | None => mkPartial (<[x := eval_term (total p) t]> (pints p)) (pbools p)
      | Some _ => p
      end
  | EqB (BoolVar x) q =>
      match pbools p !! x with
      | None => mkPartial (pints p) (<[x := eval (total p) q]> (pbools p))
      | Some _ => p
      end
  | _ => p
  end.

Definition propagate (s : list formula) : partial_interp :=
  foldl learn (mkPartial ∅ ∅) s.

Definition unit_solver (s : list formula) : CheckSatResult :=
  if bool_decide (BoolVal false ∈ s) then unsat
  else if forallb (eval (total (propagate s))) s then sat
  else unknown.


(** ** Vocabulary of the specification *)

(** A list of diagnostics flags the voice pair at [position] when it holds
    an "Unusual leap" message for that position, and the harmonic fact
    [measure] when it holds the dissonance message of that index. *)
Definition flagged_leap (violations : list string) (position : nat) : Prop :=
  ∃ interval, leap_message interval (pretty position) ∈ violations.

Definition flagged_dissonance (violations : list string) (measure : nat)
    : Prop :=
  dissonance_message measure ∈ violations.

(** [k] is the interval, modulo 12, from a pitch class of the fact up to a
    larger one. This is the set the direct checker computes; the interval
    down from the larger to the smaller pitch class is not in it. *)
Definition pairwise_interval (chord_pcs : gset Z) (k : Z) : Prop :=
  ∃ a b, a ∈ chord_pcs ∧ b ∈ chord_pcs ∧ a < b ∧ (b - a) `mod` 12 = k.

Definition harsh_signature (chord_pcs : gset Z) : Prop :=
  (3 ≤ size chord_pcs)%nat ∧
  pairwise_interval chord_pcs 1 ∧
  pairwise_interval chord_pcs 6 ∧
  pairwise_interval chord_pcs 10.

(** Fact extraction or constraint evaluation raises an exception with
    message [m]: the voice pairs cannot be extracted, or they can and
    [check_harmony] raises. ([check_voice_leading] never raises.) *)
Definition direct_raises (score : Score) (m : string) : Prop :=
  extract_voice_pairs score = Raise m ∨
  (∃ voice_pairs, extract_voice_pairs score = Return voice_pairs) ∧
  ∀ self, (Direct.check_harmony score self).1 = Raise m.

Definition smt_raises (check : list formula → CheckSatResult)
    (score : Score) (m : string) : Prop :=
  extract_voice_pairs score = Raise m ∨
  (∃ voice_pairs, extract_voice_pairs score = Return voice_pairs) ∧
  SMT.check_harmony check score = Raise m.

(** The acceptance condition of the long regime as the specification words
    it: the acceptance formula, or the blanket exception above 19. *)
Definition spec_long_acceptable (interval : Z) (duration : Q) : Prop :=
  interval ≤ 12 ∨ interval = 19 ∨ interval = 24 ∨
  (19 < interval ∧
   (interval ∈ [12; 19; 24; 28; 31] ∨ interval ∈ [29; 31; 36; 41]
    ∨ (duration < 1 # 4)%Q)).

(** ** Interpretations read off the facts *)

(** The interpretation that gives each constant the value bound to it in
    a list of bindings, and [0] or [False] to the others. *)
Definition model_of (ib : list (string * Z)) (bb : list (string * bool))
    : interp :=
  mkInterp (λ x, default 0 ((list_to_map ib : gmap string Z) !! x))
           (λ x, default false ((list_to_map bb : gmap string bool) !! x)).

(** The value of the acceptance formula of the SMT variant on a fact. *)
Definition smt_acceptable (note1 note2 : Z) (duration : Q) : bool :=
  let interval := Z.abs (note2 - note1) in
  if dur_ge_1 duration then
    bool_decide (interval ≤ 12) || bool_decide (interval = 19)
    || (bool_decide (interval = 24) && SMT.is_arpeggiation_context note1 note2)
  else
    bool_decide (interval ≤ 24) || bool_decide (interval = 31)
    || bool_decide (interval ∈ [29; 31; 36; 41]).

Definition voice_leading_ints (k : nat) (fact : Z * Z * Q)
    : list (string * Z) :=
  [ (SMT.note_name (pretty k) "1", fact.1.1);
    (SMT.note_name (pretty k) "2", fact.1.2);
    (SMT.interval_name k, Z.abs (fact.1.2 - fact.1.1)) ].

Definition voice_leading_bools (k : nat) (fact : Z * Z * Q)
    : list (string * bool) :=
  [ (SMT.voice_leading_name k, smt_acceptable fact.1.1 fact.1.2 fact.2) ].

Definition voice_leading_model (voice_pairs : list (Z * Z * Q)) : interp :=
  model_of (mjoin (imap voice_leading_ints voice_pairs))
           (mjoin (imap voice_leading_bools voice_pairs)).

Definition harmony_ints (i : nat) (chord_pcs : gset Z) : list (string * Z) :=
  let pcs := elements chord_pcs in
  imap (λ j pc, (SMT.pc_name i j, pc)) pcs ++
  mjoin (imap (λ a pa,
           imap (λ b pb, (SMT.pair_interval_name i a b, (pb - pa) `mod` 12))
                pcs) pcs).

Definition harmony_bools (i : nat) (chord_pcs : gset Z)
    : list (string * bool) :=
  [ (SMT.harmony_name i, true) ].

Definition harmony_model (chords : list (gset Z)) : interp :=
  model_of (mjoin (imap harmony_ints chords))
           (mjoin (imap harmony_bools chords)).

(** What iteration [i] of the harmony loop asserts for a chord of three
    or more pitch classes, once it is known that [harsh_dissonance] stays
    [False]. *)
Definition pair_assertion (i : nat) (e : nat * term * (nat * term))
    : formula :=
  EqI (IntVar (SMT.pair_interval_name i e.1.1 e.2.1))
      (Mod (Sub e.2.2 e.1.2) (IntVal 12)).

Definition chord_assertions (i : nat) (chord_pcs : gset Z) : list formula :=
  SMT.pc_assertions i (elements chord_pcs) ++
  (pair_assertion i <$>
     SMT.index_pairs (SMT.chord_vars_of i (elements chord_pcs))) ++
  [ EqB (BoolVar (SMT.harmony_name i)) (FNot (BoolVal false)) ].

(** ** Scores used as examples *)

(** A score on which music21 fails to find a key. *)
Definition keyless_score : Score :=
  mkScore (Return [[]])
          (Raise "failed to get likely keys for Stream component")
          (Return []).

(** One part of plain half notes, no chords. *)
Definition melody (midis : list Z) : Score :=
  mkScore (Return [(λ p, Note p 2) <$> midis]) (Return 60) (Return []).

(** One measure holding one chord of pitch classes 0, 1, 6 and 10, in the
    key of C. *)
Definition harsh_chord_score : Score :=
  mkScore (Return []) (Return 0) (Return [[[0; 1; 6; 10]]]).

(** One measure holding a C major triad and a chord of two pitches. *)
Definition triad_score : Score :=
  mkScore (Return []) (Return 60) (Return [[[60; 64; 67]; [48; 60]]]).

(** A chord with a negative pitch, a doubled octave and a semitone. *)
Definition mixed_chord : list Z := [-1; 60; 72; 61].

(** A note followed by a chord of the single pitch 64. *)
Definition note_then_single_chord : Score :=
  mkScore (Return [[Note 60 1; Chord [64] 1]]) (Return 60) (Return [[[64]]]).


(** * Properties *)

(** ** Strings and decimal numerals *)

Section strings.

Lemma prefix_app (p s : string) : String.prefix p (p +:+ s) = true.
Proof.
  induction p as [|c p IH]; simpl.
  - by destruct s.
  - unfold String.app; simpl. destruct (ascii_dec c c); [apply IH | done].
Qed.

Lemma str_in_cons (needle : string) (x : ascii) (hay : string) :
  str_in needle (String x hay)
  = String.prefix needle (String x hay) || str_in needle hay.
Proof. done. Qed.

Lemma str_in_prefix (needle hay : string) :
  String.prefix needle hay = true → str_in needle hay = true.
Proof.
  intros H. destruct hay; unfold str_in; fold str_in; by rewrite H.
Qed.

Lemma str_in_here (needle s : string) : str_in needle (needle +:+ s) = true.
Proof. apply str_in_prefix, prefix_app. Qed.

Lemma str_in_app_r (needle a b : string) :
  str_in needle b = true → str_in needle (a +:+ b) = true.
Proof.
  intros Hb. induction a as [|c a IH]; [done|].
  change (String c a +:+ b) with (String c (a +:+ b)).
  rewrite str_in_cons, IH. apply orb_true_r.
Qed.

Lemma prefix_app_l (p a b : string) :
  String.prefix p a = true → String.prefix p (a +:+ b) = true.
Proof.
  revert a. induction p as [|c p IH]; intros [|x a]; simpl; try done.
  - by destruct b.
  - unfold String.app; simpl. destruct (ascii_dec c x); [apply IH | done].
Qed.

Lemma str_in_app_l (needle a b : string) :
  str_in needle a = true → str_in needle (a +:+ b) = true.
Proof.
  induction a as [|x a IH].
  - simpl. rewrite orb_false_r. intros H.
    apply str_in_prefix, (prefix_app_l needle "" b H).
  - change (String x a +:+ b) with (String x (a +:+ b)).
    rewrite !str_in_cons. intros [H|H]%orb_true_iff.
    + assert (String.prefix needle (String x (a +:+ b)) = true) as ->; [|done].
      apply (prefix_app_l needle (String x a) b H).
    + rewrite (IH H). apply orb_true_r.
Qed.

Lemma string_app_assoc (a b c : string) : (a +:+ b) +:+ c = a +:+ b +:+ c.
Proof.
  induction a as [|x a IH]; [done|].
  unfold String.app; simpl. f_equal. apply IH.
Qed.

Lemma pretty_N_char_digit (x : N) : is_digit (pretty_N_char (x `mod` 10)%N).
Proof. exists (x `mod` 10)%N. split; [|done]. by apply N.mod_lt. Qed.

Lemma pretty_N_go_digits (x : N) (s : string) :
  str_forall is_digit s → str_forall is_digit (pretty_N_go x s).
Proof.
  revert s. induction (N.lt_wf_0 x) as [x _ IH]; intros s Hs.
  destruct (decide (x = 0)%N) as [->|Hx]; [by rewrite pretty_N_go_0|].
  rewrite pretty_N_go_step by lia.
  apply IH; [apply N.div_lt; lia|].
  split; [apply pretty_N_char_digit | done].
Qed.

Lemma pretty_N_digits (x : N) : str_forall is_digit (pretty x).
Proof.
  unfold pretty, pretty_N. case_decide.
  - split; [|done]. by exists 0%N.
  - by apply pretty_N_go_digits.
Qed.

Lemma pretty_nat_digits (n : nat) : str_forall is_digit (pretty n).
Proof. apply pretty_N_digits. Qed.

Lemma str_forall_impl (P Q : ascii → Prop) (s : string) :
  (∀ c, P c → Q c) → str_forall P s → str_forall Q s.
Proof.
  intros HPQ. induction s as [|c s IH]; simpl; [done|].
  intros [Hc Hs]. split; auto.
Qed.

Lemma digit_not_underscore (c : ascii) : is_digit c → c ≠ "_"%char.
Proof.
  intros (d & Hd & ->).
  assert (d = 0 ∨ d = 1 ∨ d = 2 ∨ d = 3 ∨ d = 4 ∨ d = 5 ∨ d = 6 ∨ d = 7
          ∨ d = 8 ∨ d = 9)%N as Hcases by lia.
  destruct_or!; subst d; discriminate.
Qed.

Lemma digit_not_space (c : ascii) : is_digit c → c ≠ " "%char.
Proof.
  intros (d & Hd & ->).
  assert (d = 0 ∨ d = 1 ∨ d = 2 ∨ d = 3 ∨ d = 4 ∨ d = 5 ∨ d = 6 ∨ d = 7
          ∨ d = 8 ∨ d = 9)%N as Hcases by lia.
  destruct_or!; subst d; discriminate.
Qed.

Lemma pretty_Z_no_space (z : Z) : str_forall (λ c, c ≠ " "%char) (pretty z).
Proof.
  destruct z as [|p|p]; unfold pretty, pretty_Z.
  - by split.
  - eapply str_forall_impl; [apply digit_not_space | apply pretty_N_digits].
  - unfold String.app; simpl. split; [done|].
    eapply str_forall_impl; [apply digit_not_space | apply pretty_N_digits].
Qed.

Lemma pretty_nat_no_underscore (n : nat) :
  str_forall (λ c, c ≠ "_"%char) (pretty n).
Proof.
  eapply str_forall_impl; [apply digit_not_underscore | apply pretty_nat_digits].
Qed.

(** A string is cut in one way only at the first occurrence of a
    character. *)
Lemma app_sep_inj (c : ascii) (s1 s2 t1 t2 : string) :
  str_forall (λ a, a ≠ c) s1 → str_forall (λ a, a ≠ c) s2 →
  s1 +:+ String c t1 = s2 +:+ String c t2 → s1 = s2 ∧ t1 = t2.
Proof.
  revert s2. induction s1 as [|a s1 IH]; intros [|b s2] H1 H2 E;
    unfold String.app in E; simpl in *.
  - by simplify_eq.
  - injection E as -> _. by destruct H2 as [[] _].
  - injection E as -> _. by destruct H1 as [[] _].
  - injection E as -> E. destruct H1 as [_ H1], H2 as [_ H2].
    destruct (IH s2 H1 H2 E) as [-> ->]. done.
Qed.

End strings.

(** ** Diagnostics name their position *)

Section messages.

Lemma leap_message_inj (iv iv' : Z) (pos pos' : string) :
  leap_message iv pos = leap_message iv' pos' → iv = iv' ∧ pos = pos'.
Proof.
  unfold leap_message. intros E.
  apply (inj (String.app _)) in E.
  change (pretty iv +:+ String " " ("semitones) at position " +:+ pos)
          = pretty iv' +:+ String " " ("semitones) at position " +:+ pos'))
    in E.
  apply app_sep_inj in E; [|apply pretty_Z_no_space..].
  destruct E as [E1 E2]. apply (inj pretty) in E1.
  by apply (inj (String.app _)) in E2.
Qed.

Lemma dissonance_message_inj : Inj (=) (=) dissonance_message.
Proof.
  intros i j E. unfold dissonance_message in E.
  apply (inj (String.app _)) in E. by apply (inj pretty) in E.
Qed.

Lemma leap_message_significant (iv : Z) (pos : string) :
  Direct.significant (leap_message iv pos) = true.
Proof.
  unfold Direct.significant, leap_message.
  rewrite (str_in_app_l "Unusual leap" "Unusual leap (") by done.
  rewrite (str_in_app_r "position" "Unusual leap ("); [done|].
  apply str_in_app_r. by apply str_in_app_l.
Qed.

Lemma dissonance_message_significant (i : nat) :
  Direct.significant (dissonance_message i) = true.
Proof.
  unfold Direct.significant, dissonance_message.
  rewrite (str_in_app_l "Highly unusual dissonance") by done.
  apply orb_true_r.
Qed.

End messages.

(** ** The direct checker *)

Section direct.

Import Direct.

Lemma dur_ge_1_spec (d : Q) : dur_ge_1 d = true ↔ (1 <= d)%Q.
Proof. apply Qle_bool_iff. Qed.

Lemma dur_lt_quarter_spec (d : Q) : dur_lt_quarter d = true ↔ (d < 1 # 4)%Q.
Proof.
  unfold dur_lt_quarter. rewrite negb_true_iff, <- not_true_iff_false.
  rewrite Qle_bool_iff. split; [apply Qnot_le_lt | apply Qlt_not_le].
Qed.

Lemma dur_long_not_fast (d : Q) :
  dur_ge_1 d = true → dur_lt_quarter d = false.
Proof.
  rewrite dur_ge_1_spec. intros H.
  apply not_true_iff_false. rewrite dur_lt_quarter_spec.
  intros H'. apply (Qlt_not_le _ _ H'). eapply Qle_trans; [|exact H]. done.
Qed.

(** The violations of the loop are the diagnostics of its iterations, and
    they do not depend on the solver. *)
Lemma check_voice_leading_loop_elem i voice_pairs slv violations v :
  v ∈ (check_voice_leading_loop i voice_pairs slv violations).2 ↔
  v ∈ violations ∨
  ∃ k fact, voice_pairs !! k = Some fact
            ∧ leap_diagnostic (i + k) fact = Some v.
Proof.
  revert i slv violations.
  induction voice_pairs as [|[[n1 n2] d] rest IH]; intros i slv violations.
  - simpl. split; [by left|]. intros [?|(k & f & Hk & _)]; [done|].
    by rewrite lookup_nil in Hk.
  - cbn [check_voice_leading_loop]. rewrite IH. split.
    + intros [Hv|(k & f & Hk & Hd)].
      * destruct (leap_diagnostic i (n1, n2, d)) as [w|] eqn:E; [|by left].
        apply elem_of_app in Hv as [Hv|Hv]; [by left|].
        apply list_elem_of_singleton in Hv as ->. right.
        exists 0%nat, (n1, n2, d). by rewrite Nat.add_0_r.
      * right. exists (S k), f. split; [done|].
        by rewrite <- Nat.add_succ_comm.
    + intros [Hv|(k & f & Hk & Hd)].
      * left. destruct (leap_diagnostic i (n1, n2, d)); [|done].
        apply elem_of_app. by left.
      * destruct k as [|k]; simpl in Hk.
        -- injection Hk as <-. rewrite Nat.add_0_r in Hd. left.
           rewrite Hd. apply elem_of_app. right. by apply list_elem_of_singleton.
        -- right. exists k, f. split; [done|].
           by rewrite Nat.add_succ_comm.
Qed.

Lemma check_voice_leading_loop_solver i voice_pairs slv violations :
  length (check_voice_leading_loop i voice_pairs slv violations).1
  = (length slv + 2 * length voice_pairs)%nat.
Proof.
  revert i slv violations.
  induction voice_pairs as [|[[n1 n2] d] rest IH]; intros i slv violations.
  - simpl. lia.
  - cbn [check_voice_leading_loop]. rewrite IH, length_app. simpl. lia.
Qed.

Lemma check_voice_leading_unfold voice_pairs self :
  check_voice_leading voice_pairs self =
  (Return (check_voice_leading_loop 0 voice_pairs (solver self) []).2,
   mkChecker (check_voice_leading_loop 0 voice_pairs (solver self) []).1).
Proof.
  unfold check_voice_leading.
  by destruct (check_voice_leading_loop 0 voice_pairs (solver self) []).
Qed.

Lemma leap_diagnostic_message i fact v :
  leap_diagnostic i fact = Some v →
  v = leap_message (Z.abs (fact.1.2 - fact.1.1)) (pretty i).
Proof.
  destruct fact as [[n1 n2] d]. unfold leap_diagnostic. simpl.
  repeat case_match; congruence.
Qed.

(** A position is flagged exactly when its own iteration appends. *)
Lemma check_voice_leading_flagged voice_pairs self k fact :
  voice_pairs !! k = Some fact →
  ∃ violations self',
    check_voice_leading voice_pairs self = (Return violations, self') ∧
    (flagged_leap violations k ↔ is_Some (leap_diagnostic k fact)).
Proof.
  intros Hk. rewrite check_voice_leading_unfold. eexists _, _.
  split; [done|]. unfold flagged_leap. split.
  - intros (iv & Hv). apply check_voice_leading_loop_elem in Hv.
    destruct Hv as [Hv|(k' & f' & Hk' & Hd)]; [by apply elem_of_nil in Hv|].
    simpl in Hd. pose proof (leap_diagnostic_message _ _ _ Hd) as E.
    apply leap_message_inj in E as [_ E]. apply (inj pretty) in E. subst k'.
    rewrite Hk in Hk'. injection Hk' as <-. by eexists.
  - intros [v Hv]. pose proof (leap_diagnostic_message _ _ _ Hv) as ->.
    eexists. apply check_voice_leading_loop_elem. right.
    exists k, fact. split; [done|]. exact Hv.
Qed.

Lemma leap_diagnostic_None i n1 n2 d :
  leap_diagnostic i (n1, n2, d) = None ↔
  Z.abs (n2 - n1) ≤ (if dur_ge_1 d then 19 else 24)
  ∨ Z.abs (n2 - n1) ∈ [12; 19; 24; 28; 31]
  ∨ Z.abs (n2 - n1) ∈ [29; 31; 36; 41]
  ∨ (d < 1 # 4)%Q.
Proof.
  unfold leap_diagnostic, is_arpeggiation_pattern, is_dramatic_gesture,
    common_arpeggio_intervals, dramatic_intervals.
  rewrite <- dur_lt_quarter_spec.
  repeat case_bool_decide; destruct (dur_lt_quarter d);
    set_unfold; split; intros; try done; try tauto; try lia;
    destruct_or?; try done; try lia; tauto.
Qed.

End direct.

(** ** Names of Z3 constants *)

Section names.

Lemma note_name_inj (i j : nat) (a b : string) :
  SMT.note_name (pretty i) a = SMT.note_name (pretty j) b → i = j ∧ a = b.
Proof.
  unfold SMT.note_name. intros E. apply (inj (String.app _)) in E.
  change (pretty i +:+ String "_" a = pretty j +:+ String "_" b) in E.
  apply app_sep_inj in E; [|apply pretty_nat_no_underscore..].
  destruct E as [E ->]. by apply (inj pretty) in E.
Qed.

Lemma interval_name_inj : Inj (=) (=) SMT.interval_name.
Proof.
  intros i j E. unfold SMT.interval_name in E.
  apply (inj (String.app _)) in E. by apply (inj pretty) in E.
Qed.

Lemma voice_leading_name_inj : Inj (=) (=) SMT.voice_leading_name.
Proof.
  intros i j E. unfold SMT.voice_leading_name in E.
  apply (inj (String.app _)) in E. by apply (inj pretty) in E.
Qed.

Lemma pc_name_inj (i j i' j' : nat) :
  SMT.pc_name i j = SMT.pc_name i' j' → i = i' ∧ j = j'.
Proof.
  unfold SMT.pc_name. intros E. apply (inj (String.app _)) in E.
  change (pretty i +:+ String "_" ("pc_" +:+ pretty j)
          = pretty i' +:+ String "_" ("pc_" +:+ pretty j')) in E.
  apply app_sep_inj in E; [|apply pretty_nat_no_underscore..].
  destruct E as [E1 E2]. apply (inj pretty) in E1.
  apply (inj (String.app _)) in E2. by apply (inj pretty) in E2.
Qed.

Lemma pair_interval_name_inj (i a b i' a' b' : nat) :
  SMT.pair_interval_name i a b = SMT.pair_interval_name i' a' b' →
  i = i' ∧ a = a' ∧ b = b'.
Proof.
  unfold SMT.pair_interval_name. intros E. apply (inj (String.app _)) in E.
  change (pretty i +:+ String "_" (pretty a +:+ String "_" (pretty b))
          = pretty i' +:+ String "_" (pretty a' +:+ String "_" (pretty b')))
    in E.
  apply app_sep_inj in E; [|apply pretty_nat_no_underscore..].
  destruct E as [E1 E2]. apply (inj pretty) in E1.
  apply app_sep_inj in E2; [|apply pretty_nat_no_underscore..].
  destruct E2 as [E2 E3]. apply (inj pretty) in E2. by apply (inj pretty) in E3.
Qed.

Lemma harmony_name_inj : Inj (=) (=) SMT.harmony_name.
Proof.
  intros i j E. unfold SMT.harmony_name in E.
  apply (inj (String.app _)) in E. by apply (inj pretty) in E.
Qed.

End names.

(** ** Interpretations from bindings *)

Section models.

Lemma model_of_ival ib bb x v :
  (x, v) ∈ ib → (∀ v', (x, v') ∈ ib → v = v') →
  ival (model_of ib bb) x = v.
Proof.
  intros Hin Hfun. simpl.
  by rewrite (elem_of_list_to_map_1' ib x v Hfun Hin).
Qed.

Lemma model_of_bval ib bb x v :
  (x, v) ∈ bb → (∀ v', (x, v') ∈ bb → v = v') →
  bval (model_of ib bb) x = v.
Proof.
  intros Hin Hfun. simpl.
  by rewrite (elem_of_list_to_map_1' bb x v Hfun Hin).
Qed.

Lemma elem_of_join_imap {A B} (f : nat → A → list B) (l : list A) (y : B) :
  y ∈ mjoin (imap f l) ↔ ∃ k x, l !! k = Some x ∧ y ∈ f k x.
Proof.
  rewrite list_elem_of_join. split.
  - intros (ys & Hy & Hys). apply elem_of_lookup_imap in Hys.
    destruct Hys as (k & x & -> & Hk). eauto.
  - intros (k & x & Hk & Hy). exists (f k x). split; [done|].
    apply elem_of_lookup_imap. eauto.
Qed.

End models.

(** ** The voice-leading formula of the SMT variant *)

Section smt_voice_leading.

Lemma build_voice_leading_eq i voice_pairs s cd :
  SMT.build_voice_leading i voice_pairs s cd =
  (s ++ mjoin (imap (λ k, SMT.voice_leading_assertions (i + k)) voice_pairs),
   cd ++ imap (λ k, SMT.voice_leading_datum (i + k)) voice_pairs).
Proof.
  revert i s cd. induction voice_pairs as [|fact rest IH]; intros i s cd.
  - simpl. by rewrite !app_nil_r.
  - cbn [SMT.build_voice_leading]. rewrite IH, !imap_cons, Nat.add_0_r.
    cbn [mjoin list_join]. rewrite <- !app_assoc. simpl.
    rewrite (imap_ext _ ((λ k, SMT.voice_leading_assertions (i + k)) ∘ S) rest)
      by (intros; simpl; by rewrite Nat.add_succ_r).
    by rewrite (imap_ext _ ((λ k, SMT.voice_leading_datum (i + k)) ∘ S) rest)
      by (intros; simpl; by rewrite Nat.add_succ_r).
Qed.

Lemma eval_acceptable_intervals m x n1 n2 d :
  ival m x = Z.abs (n2 - n1) →
  eval m (SMT.acceptable_intervals (IntVar x) n1 n2 d) = smt_acceptable n1 n2 d.
Proof.
  intros Hx. unfold SMT.acceptable_intervals, smt_acceptable.
  destruct (dur_ge_1 d); simpl; rewrite Hx.
  - by rewrite orb_assoc.
  - rewrite orb_assoc. f_equal.
    repeat case_bool_decide; set_unfold; try done; lia.
Qed.

Section one_run.

Variable voice_pairs : list (Z * Z * Q).

Let m := voice_leading_model voice_pairs.

Lemma voice_leading_ints_functional k fact x v v' :
  voice_pairs !! k = Some fact →
  (x, v) ∈ voice_leading_ints k fact →
  (x, v') ∈ mjoin (imap voice_leading_ints voice_pairs) →
  v = v'.
Proof.
  intros Hk Hv Hv'. apply elem_of_join_imap in Hv'.
  destruct Hv' as (k' & fact' & Hk' & Hv').
  unfold voice_leading_ints in Hv, Hv'.
  repeat (apply elem_of_cons in Hv as [Hv|Hv]);
    [..|by apply elem_of_nil in Hv];
    repeat (apply elem_of_cons in Hv' as [Hv'|Hv']);
    try (by apply elem_of_nil in Hv');
    apply pair_equal_spec in Hv as [-> ->];
    apply pair_equal_spec in Hv' as [E ->];
    try (unfold SMT.note_name, SMT.interval_name in E; discriminate E);
    try (apply note_name_inj in E as [-> E]; try discriminate E);
    try (apply interval_name_inj in E as ->);
    rewrite Hk in Hk'; by injection Hk' as <-.
Qed.

Lemma voice_leading_ival k fact x v :
  voice_pairs !! k = Some fact →
  (x, v) ∈ voice_leading_ints k fact →
  ival m x = v.
Proof.
  intros Hk Hv. apply model_of_ival.
  - apply elem_of_join_imap. eauto.
  - intros v'. by apply (voice_leading_ints_functional k fact).
Qed.

Lemma voice_leading_bval k fact :
  voice_pairs !! k = Some fact →
  bval m (SMT.voice_leading_name k) = smt_acceptable fact.1.1 fact.1.2 fact.2.
Proof.
  intros Hk. apply model_of_bval.
  - apply elem_of_join_imap. exists k, fact. split; [done|].
    by apply list_elem_of_singleton.
  - intros v' Hv'. apply elem_of_join_imap in Hv'.
    destruct Hv' as (k' & fact' & Hk' & Hv').
    apply list_elem_of_singleton in Hv'.
    apply pair_equal_spec in Hv' as [E ->].
    apply voice_leading_name_inj in E as ->.
    rewrite Hk in Hk'. by injection Hk' as <-.
Qed.

Lemma voice_leading_assertions_hold k fact f :
  voice_pairs !! k = Some fact →
  f ∈ SMT.voice_leading_assertions k fact →
  eval m f = true.
Proof.
  intros Hk Hf. destruct fact as [[n1 n2] d].
  assert (ival m (SMT.note_name (pretty k) "1") = n1) as H1.
  { apply (voice_leading_ival k (n1, n2, d)); [done|].
    unfold voice_leading_ints. repeat constructor. }
  assert (ival m (SMT.note_name (pretty k) "2") = n2) as H2.
  { apply (voice_leading_ival k (n1, n2, d)); [done|].
    unfold voice_leading_ints. repeat constructor. }
  assert (ival m (SMT.interval_name k) = Z.abs (n2 - n1)) as H3.
  { apply (voice_leading_ival k (n1, n2, d)); [done|].
    unfold voice_leading_ints. repeat constructor. }
  unfold SMT.voice_leading_assertions in Hf.
  repeat (apply elem_of_cons in Hf as [->|Hf]);
    [..|by apply elem_of_nil in Hf]; cbn [eval eval_term].
  - by rewrite H1, bool_decide_eq_true.
  - by rewrite H2, bool_decide_eq_true.
  - by rewrite H1, H2, H3, bool_decide_eq_true.
  - rewrite (voice_leading_bval k (n1, n2, d) Hk).
    rewrite (eval_acceptable_intervals m _ n1 n2 d H3). simpl.
    by destruct (smt_acceptable n1 n2 d).
Qed.

(** The joint formula has a model: the facts themselves. *)
Lemma voice_leading_formula_satisfiable :
  satisfiable (SMT.build_voice_leading 0 voice_pairs [] []).1.
Proof.
  exists m. rewrite build_voice_leading_eq. simpl.
  apply Forall_forall. intros f Hf.
  apply elem_of_join_imap in Hf. destruct Hf as (k & fact & Hk & Hf).
  by apply (voice_leading_assertions_hold k fact).
Qed.

End one_run.

(** No leap is ever reported, whatever a sound solver answers. *)
Lemma smt_check_voice_leading_nil check voice_pairs :
  unsat_sound check → SMT.check_voice_leading check voice_pairs = [].
Proof.
  intros Hsound. unfold SMT.check_voice_leading.
  pose proof (voice_leading_formula_satisfiable voice_pairs) as Hsat.
  destruct (SMT.build_voice_leading 0 voice_pairs [] []) as [s cd].
  case_decide as Hc; [|done]. by destruct (Hsound s Hc).
Qed.

End smt_voice_leading.

(** ** The harmony formula of the SMT variant *)

Section smt_harmony.

(** The condition of the [if] is false on every interval constant: an
    integer constant and a numeral are never the same tree. *)
Lemma harsh_test_var (x : string) : SMT.harsh_test (IntVar x) = Return false.
Proof. reflexivity. Qed.

Lemma interval_loop_eq i todo s harsh_dissonance :
  SMT.interval_loop i todo s harsh_dissonance
  = Return (s ++ (pair_assertion i <$> todo), harsh_dissonance).
Proof.
  revert s. induction todo as [|[[a_idx a] [b_idx b]] rest IH]; intros s.
  - simpl. by rewrite app_nil_r.
  - cbn [SMT.interval_loop]. rewrite harsh_test_var, IH.
    by rewrite <- app_assoc.
Qed.

(** The loop over the chords never raises, and asserts nothing beyond
    [chord_assertions]. *)
Lemma build_harmony_spec i chords s cd :
  ∃ s' cd',
    SMT.build_harmony i chords s cd = Return (s', cd') ∧
    ∀ f, f ∈ s' →
      f ∈ s ∨ ∃ k pcs, chords !! k = Some pcs
                       ∧ f ∈ chord_assertions (i + k) pcs.
Proof.
  revert i s cd. induction chords as [|pcs rest IH]; intros i s cd.
  - eexists _, _. split; [done|]. by left.
  - cbn [SMT.build_harmony]. case_bool_decide as Hsize.
    + destruct (IH (S i) s cd) as (s' & cd' & -> & Hs').
      eexists _, _. split; [done|]. intros f Hf.
      destruct (Hs' f Hf) as [?|(k & pcs' & Hk & Hin)]; [by left|].
      right. exists (S k), pcs'. split; [done|].
      by rewrite <- Nat.add_succ_comm.
    + rewrite interval_loop_eq.
      match goal with
      | |- context [SMT.build_harmony (S i) rest ?s0 ?cd0] =>
          destruct (IH (S i) s0 cd0) as (s' & cd' & -> & Hs')
      end.
      eexists _, _. split; [done|]. intros f Hf.
      destruct (Hs' f Hf) as [Hin|(k & pcs' & Hk & Hin)].
      * rewrite <- !app_assoc in Hin. apply elem_of_app in Hin as [?|Hin];
          [by left|].
        right. exists 0%nat, pcs. split; [done|].
        by rewrite Nat.add_0_r.
      * right. exists (S k), pcs'. split; [done|].
        by rewrite <- Nat.add_succ_comm.
Qed.

(** Every Boolean alias of the harmony formula is defined as [Not(False)]. *)
Lemma chord_assertions_alias i pcs p q :
  EqB p q ∈ chord_assertions i pcs → q = FNot (BoolVal false).
Proof.
  unfold chord_assertions. intros Hf.
  apply elem_of_app in Hf as [Hf|Hf]; [|apply elem_of_app in Hf as [Hf|Hf]].
  - by apply elem_of_lookup_imap in Hf as (j & pc & ? & _).
  - by apply list_elem_of_fmap in Hf as (e & ? & _).
  - apply list_elem_of_singleton in Hf. by injection Hf as _ ->.
Qed.

Lemma elem_of_harmony_ints i pcs x v :
  (x, v) ∈ harmony_ints i pcs ↔
  (∃ j pc, elements pcs !! j = Some pc ∧ x = SMT.pc_name i j ∧ v = pc)
  ∨ (∃ a b pa pb, elements pcs !! a = Some pa ∧ elements pcs !! b = Some pb
       ∧ x = SMT.pair_interval_name i a b ∧ v = (pb - pa) `mod` 12).
Proof.
  unfold harmony_ints. cbv zeta.
  rewrite elem_of_app, elem_of_lookup_imap, elem_of_join_imap.
  split.
  - intros [(j & pc & E & Hj)|(a & pa & Ha & Hb)].
    + apply pair_equal_spec in E as [-> ->]. left. eauto.
    + apply elem_of_lookup_imap in Hb as (b & pb & E & Hb).
      apply pair_equal_spec in E as [-> ->]. right. eauto 10.
  - intros [(j & pc & Hj & -> & ->)|(a & b & pa & pb & Ha & Hb & -> & ->)].
    + left. eauto.
    + right. exists a, pa. split; [done|].
      apply elem_of_lookup_imap. eauto.
Qed.

Section one_run.

Variable chords : list (gset Z).

Let m := harmony_model chords.

Lemma harmony_ints_functional k pcs x v v' :
  chords !! k = Some pcs →
  (x, v) ∈ harmony_ints k pcs →
  (x, v') ∈ mjoin (imap harmony_ints chords) →
  v = v'.
Proof.
  intros Hk Hv Hv'. apply elem_of_join_imap in Hv'.
  destruct Hv' as (k' & pcs' & Hk' & Hv').
  apply elem_of_harmony_ints in Hv, Hv'.
  destruct Hv as [(j & pc & Hj & -> & ->)|(a & b & pa & pb & Ha & Hb & -> & ->)];
    destruct Hv' as [(j' & pc' & Hj' & E & ->)
                    |(a' & b' & pa' & pb' & Ha' & Hb' & E & ->)];
    try (unfold SMT.pc_name, SMT.pair_interval_name in E; discriminate E).
  - apply pc_name_inj in E as [-> ->].
    rewrite Hk in Hk'. injection Hk' as <-. congruence.
  - apply pair_interval_name_inj in E as (-> & -> & ->).
    rewrite Hk in Hk'. injection Hk' as <-. congruence.
Qed.

Lemma harmony_ival k pcs x v :
  chords !! k = Some pcs → (x, v) ∈ harmony_ints k pcs → ival m x = v.
Proof.
  intros Hk Hv. apply model_of_ival.
  - apply elem_of_join_imap. eauto.
  - intros v'. by apply (harmony_ints_functional k pcs).
Qed.

Lemma harmony_bval k pcs :
  chords !! k = Some pcs → bval m (SMT.harmony_name k) = true.
Proof.
  intros Hk. apply model_of_bval.
  - apply elem_of_join_imap. exists k, pcs. split; [done|].
    by apply list_elem_of_singleton.
  - intros v' Hv'. apply elem_of_join_imap in Hv'.
    destruct Hv' as (k' & pcs' & Hk' & Hv').
    apply list_elem_of_singleton in Hv'.
    by apply pair_equal_spec in Hv' as [_ ->].
Qed.

Lemma elem_of_index_pairs i pcs e :
  e ∈ SMT.index_pairs (SMT.chord_vars_of i pcs) →
  ∃ a b pa pb, pcs !! a = Some pa ∧ pcs !! b = Some pb ∧
    e = ((a, IntVar (SMT.pc_name i a)), (b, IntVar (SMT.pc_name i b))).
Proof.
  unfold SMT.index_pairs, SMT.chord_vars_of. intros He.
  apply list_elem_of_bind in He as (x & He & Hx).
  apply list_elem_of_bind in He as (y & He & Hy).
  apply elem_of_lookup_imap in Hx as (a & ta & -> & Ha).
  apply elem_of_lookup_imap in Hy as (b & tb & -> & Hb).
  case_bool_decide; [|by apply elem_of_nil in He].
  apply list_elem_of_singleton in He as ->.
  apply list_lookup_imap_Some in Ha as (pa & Ha & ->).
  apply list_lookup_imap_Some in Hb as (pb & Hb & ->).
  eauto 10.
Qed.

Lemma chord_assertions_hold k pcs f :
  chords !! k = Some pcs → f ∈ chord_assertions k pcs → eval m f = true.
Proof.
  intros Hk Hf. unfold chord_assertions in Hf.
  assert (∀ j pc, elements pcs !! j = Some pc → ival m (SMT.pc_name k j) = pc)
    as Hpc.
  { intros j pc Hj. apply (harmony_ival k pcs); [done|].
    apply elem_of_harmony_ints. left. eauto. }
  apply elem_of_app in Hf as [Hf|Hf]; [|apply elem_of_app in Hf as [Hf|Hf]].
  - apply elem_of_lookup_imap in Hf as (j & pc & -> & Hj).
    cbn [eval eval_term]. by rewrite (Hpc j pc Hj), bool_decide_eq_true.
  - apply list_elem_of_fmap in Hf as (e & -> & He).
    apply elem_of_index_pairs in He as (a & b & pa & pb & Ha & Hb & ->).
    unfold pair_assertion. cbn [eval eval_term fst snd].
    rewrite (Hpc a pa Ha), (Hpc b pb Hb), bool_decide_eq_true.
    apply (harmony_ival k pcs); [done|].
    apply elem_of_harmony_ints. right. eauto 10.
  - apply list_elem_of_singleton in Hf as ->. cbn [eval].
    by rewrite (harmony_bval k pcs Hk).
Qed.

Lemma harmony_formula_satisfiable s cd :
  SMT.build_harmony 0 chords [] [] = Return (s, cd) → satisfiable s.
Proof.
  intros Hb. exists m. apply Forall_forall. intros f Hf.
  destruct (build_harmony_spec 0 chords [] []) as (s' & cd' & E & Hs').
  rewrite Hb in E. injection E as <- <-.
  destruct (Hs' f Hf) as [Hin|(k & pcs & Hk & Hin)];
    [by apply elem_of_nil in Hin|].
  by apply (chord_assertions_hold k pcs).
Qed.

End one_run.

(** No dissonance is ever reported: the call raises with music21 or
    returns the empty list. *)
Lemma smt_check_harmony_cases check score :
  unsat_sound check →
  match analyze_key score, measures score with
  | Raise e, _ => SMT.check_harmony check score = Raise e
  | Return _, Raise e => SMT.check_harmony check score = Raise e
  | Return _, Return _ => SMT.check_harmony check score = Return []
  end.
Proof.
  intros Hsound. unfold SMT.check_harmony.
  destruct (analyze_key score) as [key|e]; [|done].
  destruct (measures score) as [ms|e]; [|done].
  destruct (build_harmony_spec 0 (vertical_sonorities ms) [] [])
    as (s & cd & E & _).
  rewrite E. case_decide as Hc; [|done].
  destruct (Hsound s Hc).
  by apply (harmony_formula_satisfiable (vertical_sonorities ms) s cd).
Qed.

End smt_harmony.

(** ** The small solver *)

Lemma unit_solver_sound : unsat_sound unit_solver.
Proof.
  intros s Hs [m Hm]. unfold unit_solver in Hs.
  case_bool_decide as Hin.
  - rewrite Forall_forall in Hm. by specialize (Hm _ Hin).
  - by destruct (forallb _ s).
Qed.

(** ** The harmony rule of the direct checker *)

Section direct_harmony.

Import Direct.

Lemma elem_of_intervals (chord_pcs : gset Z) (k : Z) :
  k ∈ intervals chord_pcs ↔ pairwise_interval chord_pcs k.
Proof.
  unfold intervals, pairwise_interval.
  rewrite elem_of_list_to_set, list_elem_of_bind. split.
  - intros (a & Hk & Ha). apply list_elem_of_bind in Hk as (b & Hk & Hb).
    apply elem_of_elements in Ha, Hb.
    case_bool_decide; [|by apply elem_of_nil in Hk].
    apply list_elem_of_singleton in Hk. eauto 10.
  - intros (a & b & Ha & Hb & Hlt & <-).
    exists a. split; [|by apply elem_of_elements].
    apply list_elem_of_bind. exists b. split; [|by apply elem_of_elements].
    rewrite bool_decide_eq_true_2 by done. by apply list_elem_of_singleton.
Qed.

Lemma harsh_spec (chord_pcs : gset Z) :
  harsh chord_pcs = true ↔ harsh_signature chord_pcs.
Proof.
  unfold harsh, harsh_signature.
  rewrite !andb_true_iff, !bool_decide_eq_true, !elem_of_intervals. tauto.
Qed.

Lemma check_harmony_loop_elem tonic_pc i chords violations v :
  v ∈ check_harmony_loop tonic_pc i chords violations ↔
  v ∈ violations ∨
  ∃ k pcs, chords !! k = Some pcs ∧ harsh pcs = true
           ∧ v = dissonance_message (i + k).
Proof.
  revert i violations.
  induction chords as [|pcs rest IH]; intros i violations.
  - simpl. split; [by left|]. intros [?|(k & p & Hk & _)]; [done|].
    by rewrite lookup_nil in Hk.
  - cbn [check_harmony_loop]. rewrite IH. split.
    + intros [Hv|(k & p & Hk & Hh & ->)].
      * destruct (harsh pcs) eqn:E; [|by left].
        apply elem_of_app in Hv as [Hv|Hv]; [by left|].
        apply list_elem_of_singleton in Hv as ->. right.
        exists 0%nat, pcs. by rewrite Nat.add_0_r.
      * right. exists (S k), p. by rewrite <- Nat.add_succ_comm.
    + intros [Hv|(k & p & Hk & Hh & ->)].
      * left. destruct (harsh pcs); [|done]. apply elem_of_app. by left.
      * destruct k as [|k]; simpl in Hk.
        -- injection Hk as <-. rewrite Nat.add_0_r, Hh. left.
           apply elem_of_app. right. by apply list_elem_of_singleton.
        -- right. exists k, p. by rewrite Nat.add_succ_comm.
Qed.

Lemma check_harmony_loop_flagged tonic_pc chords k pcs :
  chords !! k = Some pcs →
  flagged_dissonance (check_harmony_loop tonic_pc 0 chords []) k
  ↔ harsh_signature pcs.
Proof.
  intros Hk. unfold flagged_dissonance.
  rewrite check_harmony_loop_elem, <- harsh_spec. split.
  - intros [Hv|(k' & p & Hk' & Hh & E)]; [by apply elem_of_nil in Hv|].
    apply dissonance_message_inj in E. simpl in E. subst k'.
    rewrite Hk in Hk'. by injection Hk' as <-.
  - intros Hh. right. exists k, pcs. eauto.
Qed.

Lemma check_harmony_unfold score self key ms :
  analyze_key score = Return key → measures score = Return ms →
  check_harmony score self
  = (Return (check_harmony_loop (key `mod` 12) 0 (vertical_sonorities ms) []),
     self).
Proof.
  intros Hkey Hms. unfold check_harmony, bind, lift, ret.
  by rewrite Hkey, Hms.
Qed.

(** Every pitch class is allowed, whatever the tonic. *)
Lemma allowed_pcs_all (tonic_pc pc : Z) :
  0 ≤ pc < 12 → pc ∈ allowed_pcs tonic_pc.
Proof.
  intros Hpc. unfold allowed_pcs.
  rewrite elem_of_list_to_set, list_elem_of_fmap.
  exists ((pc - tonic_pc) `mod` 12). split.
  - rewrite Zplus_mod_idemp_r.
    replace (tonic_pc + (pc - tonic_pc)) with pc by lia.
    by rewrite Z.mod_small.
  - pose proof (Z.mod_pos_bound (pc - tonic_pc) 12 ltac:(lia)) as Hk.
    set_unfold. lia.
Qed.

End direct_harmony.

(** ** The filter of [verify_piece] keeps every diagnostic *)

Section significant.

Import Direct.

Lemma filter_all {A} (P : A → Prop) `{∀ x, Decision (P x)} (l : list A) :
  (∀ x, x ∈ l → P x) → filter P l = l.
Proof.
  induction l as [|x l IH]; [done|]. intros Hall.
  rewrite filter_cons_True by (apply Hall; constructor).
  f_equal. apply IH. intros y Hy. apply Hall. by constructor.
Qed.

Lemma significant_violations_all voice_pairs slv tonic_pc chords :
  let violations :=
    (check_voice_leading_loop 0 voice_pairs slv []).2
      ++ check_harmony_loop tonic_pc 0 chords [] in
  filter (λ v, significant v = true) violations = violations.
Proof.
  intros violations. apply filter_all. intros v Hv.
  apply elem_of_app in Hv as [Hv|Hv].
  - apply check_voice_leading_loop_elem in Hv
      as [Hv|(k & fact & _ & Hd)]; [by apply elem_of_nil in Hv|].
    rewrite (leap_diagnostic_message _ _ _ Hd).
    apply leap_message_significant.
  - apply check_harmony_loop_elem in Hv
      as [Hv|(k & pcs & _ & _ & ->)]; [by apply elem_of_nil in Hv|].
    apply dissonance_message_significant.
Qed.

End significant.

(** * The claims *)

(** ** Voice leading *)

(** C1, at the failing inputs: on the voice pair [(60, 85, 2.0)] the
    direct checker reports the leap of 25 semitones and the SMT checker
    reports nothing; on a chord of pitch classes 0, 1, 6, 10 the direct
    checker reports the dissonance and the SMT checker reports nothing,
    for any solver that never answers [unsat] on a satisfiable formula.
    The two strategies do not classify these facts identically. *)
Theorem C1_strategies_disagree (check : list formula → CheckSatResult) :
  unsat_sound check →
  ((Direct.check_voice_leading [(60, 85, 2%Q)] Direct.init).1
     = Return ["Unusual leap (25 semitones) at position 0"] ∧
   SMT.check_voice_leading check [(60, 85, 2%Q)] = []) ∧
  ((Direct.check_harmony harsh_chord_score Direct.init).1
     = Return ["Highly unusual dissonance in measure 0"] ∧
   SMT.check_harmony check harsh_chord_score = Return []).
Proof.
  intros Hsound. split; (split; [reflexivity|]).
  - by apply smt_check_voice_leading_nil.
  - exact (smt_check_harmony_cases check harsh_chord_score Hsound).
Qed.

Lemma C1_strategies_disagree_witness :
  ((Direct.check_voice_leading [(60, 85, 2%Q)] Direct.init).1
     = Return ["Unusual leap (25 semitones) at position 0"] ∧
   SMT.check_voice_leading unit_solver [(60, 85, 2%Q)] = []) ∧
  ((Direct.check_harmony harsh_chord_score Direct.init).1
     = Return ["Highly unusual dissonance in measure 0"] ∧
   SMT.check_harmony unit_solver harsh_chord_score = Return []).
Proof. exact (C1_strategies_disagree unit_solver unit_solver_sound). Defined.

(** C2 as stated fails: the pair (60, 75) on a half note spans 15
    semitones, which the stated condition rejects, and the direct checker
    emits no diagnostic for it. *)
Lemma C2_counterexample :
  (Direct.check_voice_leading [(60, 75, 2%Q)] Direct.init).1 = Return [] ∧
  (1 <= 2)%Q ∧
  ¬ spec_long_acceptable (Z.abs (75 - 60)) 2.
Proof.
  split; [reflexivity|]. split; [done|].
  unfold spec_long_acceptable. simpl. intros H. destruct_or!; lia.
Qed.

(** C2, amended: in the direct checker a voice pair whose first note lasts
    a quarter note or more gets no diagnostic exactly when its interval is
    at most 19, or is one of 24, 28, 31 (arpeggiation), or one of 29, 31,
    36, 41 (dramatic gesture). Intervals from 13 to 18 are accepted. *)
Theorem C2_long_regime (voice_pairs : list (Z * Z * Q))
    (self : Direct.MozartChecker) (k : nat) (note1 note2 : Z) (duration : Q) :
  voice_pairs !! k = Some (note1, note2, duration) →
  (1 <= duration)%Q →
  ∃ violations self',
    Direct.check_voice_leading voice_pairs self = (Return violations, self') ∧
    (¬ flagged_leap violations k ↔
     Z.abs (note2 - note1) ≤ 19
     ∨ Z.abs (note2 - note1) ∈ [24; 28; 31]
     ∨ Z.abs (note2 - note1) ∈ [29; 31; 36; 41]).
Proof.
  intros Hk Hd.
  destruct (check_voice_leading_flagged voice_pairs self k _ Hk)
    as (violations & self' & Hrun & Hflag).
  exists violations, self'. split; [done|].
  rewrite Hflag, <- eq_None_not_Some, leap_diagnostic_None.
  apply dur_ge_1_spec in Hd as Hlong. rewrite Hlong.
  split.
  - intros [H|[H|[H|H]]]; [by left| |by right; right|].
    + set_unfold. destruct_or!; try done; [left; lia..| | |];
        right; left; set_unfold; eauto.
    + destruct (Qlt_not_le _ _ H). by eapply Qle_trans; [|exact Hd].
  - intros [H|[H|H]]; [by left| |by right; right; left].
    right; left. set_unfold. destruct_or!; eauto 10.
Qed.

Lemma C2_long_regime_witness :
  ∃ violations self',
    Direct.check_voice_leading [(60, 75, 2%Q)] Direct.init
      = (Return violations, self') ∧
    (¬ flagged_leap violations 0 ↔
     Z.abs (75 - 60) ≤ 19
     ∨ Z.abs (75 - 60) ∈ [24; 28; 31]
     ∨ Z.abs (75 - 60) ∈ [29; 31; 36; 41]).
Proof.
  apply (C2_long_regime [(60, 75, 2%Q)] Direct.init 0 60 75 2);
    [reflexivity | discriminate].
Defined.



(** C9: in the SMT variant the joint voice-leading formula is satisfiable
    for every list of voice pairs, so a solver that is sound on [unsat]
    does not answer [unsat], the branch that appends "Unusual leap"
    diagnostics is not reached, and [check_voice_leading] returns the
    empty list. *)
Theorem C9_smt_voice_leading_empty (check : list formula → CheckSatResult)
    (voice_pairs : list (Z * Z * Q)) :
  unsat_sound check →
  satisfiable (SMT.build_voice_leading 0 voice_pairs [] []).1 ∧
  check (SMT.build_voice_leading 0 voice_pairs [] []).1 ≠ unsat ∧
  SMT.check_voice_leading check voice_pairs = [].
Proof.
  intros Hsound.
  pose proof (voice_leading_formula_satisfiable voice_pairs) as Hsat.
  split; [done|]. split.
  - intros Hc. by destruct (Hsound _ Hc).
  - by apply smt_check_voice_leading_nil.
Qed.

Lemma C9_smt_voice_leading_empty_witness :
  satisfiable (SMT.build_voice_leading 0 [(60, 85, 2%Q); (85, 40, 1 # 2)] [] []).1 ∧
  unit_solver (SMT.build_voice_leading 0 [(60, 85, 2%Q); (85, 40, 1 # 2)] [] []).1
    ≠ unsat ∧
  SMT.check_voice_leading unit_solver [(60, 85, 2%Q); (85, 40, 1 # 2)] = [].
Proof.
  exact (C9_smt_voice_leading_empty unit_solver
           [(60, 85, 2%Q); (85, 40, 1 # 2)] unit_solver_sound).
Defined.

(** ** Fact extraction *)

(** C7 as stated fails: a chord of the single pitch 64 adds no entry to
    the effective notes, and a part made of a note and that chord yields
    no voice pair. *)
Lemma C7_counterexample :
  length (effective_notes (Chord [64] 1)) ≠ 1%nat ∧
  ¬ ∃ fact, extract_voice_pairs note_then_single_chord = Return [fact].
Proof.
  split; [done|]. intros [fact H]. discriminate H.
Qed.

(** C7, amended: a chord event of exactly one pitch contributes no entry
    to the effective-note list of its part (the list is the same as if the
    event were absent); a part consisting of a note followed by a
    one-pitch chord yields no voice pair. *)
Theorem C7_single_pitch_chord (p : Z) (d : Q) :
  effective_notes (Chord [p] d) = [] ∧
  (∀ before after,
     part_notes (before ++ Chord [p] d :: after) = part_notes (before ++ after)) ∧
  (∀ a d1 key ms,
     extract_voice_pairs (mkScore (Return [[Note a d1; Chord [p] d]]) key ms)
     = Return []).
Proof.
  split; [reflexivity|]. split.
  - intros before after. unfold part_notes.
    rewrite !fmap_app, !join_app. reflexivity.
  - reflexivity.
Qed.

(** ** Checker state *)

Section checker_state.

Import Direct.

Lemma verify_piece_extracted score self voice_pairs :
  extract_voice_pairs score = Return voice_pairs →
  solver (verify_piece score self).2
  = (check_voice_leading_loop 0 voice_pairs (solver self) []).1.
Proof.
  intros Hvp. unfold verify_piece, try_except, analysis, bind, lift.
  rewrite Hvp, check_voice_leading_unfold.
  unfold check_harmony, bind, lift, ret.
  destruct (analyze_key score); [|done].
  by destruct (measures score).
Qed.

Lemma check_voice_leading_loop_violations i voice_pairs slv slv' violations :
  (check_voice_leading_loop i voice_pairs slv violations).2
  = (check_voice_leading_loop i voice_pairs slv' violations).2.
Proof.
  revert i slv slv' violations.
  induction voice_pairs as [|[[n1 n2] d] rest IH]; intros; [done|].
  cbn [check_voice_leading_loop]. apply IH.
Qed.

(** The verdict does not read the solver. *)
Lemma verify_piece_ignores_solver score self self' :
  (verify_piece score self).1 = (verify_piece score self').1.
Proof.
  unfold verify_piece, try_except, analysis, bind, lift.
  destruct (extract_voice_pairs score) as [vp|e]; [|done].
  rewrite !check_voice_leading_unfold.
  rewrite (check_voice_leading_loop_violations 0 vp (solver self) (solver self')).
  unfold check_harmony, bind, lift, ret.
  destruct (analyze_key score); [|done].
  by destruct (measures score).
Qed.

End checker_state.

(** C8, on the code: every analysis of the direct checker leaves two more
    assertions per voice pair in [self.solver], which [__init__] creates
    once; the next analysis by the same instance starts from that longer
    solver. *)
Theorem C8_solver_accumulates (score : Score) (self : Direct.MozartChecker)
    (voice_pairs : list (Z * Z * Q)) :
  extract_voice_pairs score = Return voice_pairs →
  length (Direct.solver (Direct.verify_piece score self).2)
  = (length (Direct.solver self) + 2 * length voice_pairs)%nat.
Proof.
  intros Hvp. rewrite (verify_piece_extracted score self voice_pairs Hvp).
  apply check_voice_leading_loop_solver.
Qed.

Lemma C8_solver_accumulates_witness :
  length (Direct.solver (Direct.verify_piece (melody [60; 62]) Direct.init).2)
  = (length (Direct.solver Direct.init) + 2 * length [(60, 62, 2%Q)])%nat.
Proof.
  apply (C8_solver_accumulates (melody [60; 62]) Direct.init [(60, 62, 2%Q)]).
  reflexivity.
Defined.

(** The state after one analysis of a two-note melody, and after a second
    analysis of it by the same instance. *)
Example two_analyses :
  let self1 := (Direct.verify_piece (melody [60; 62]) Direct.init).2 in
  let self2 := (Direct.verify_piece (melody [60; 62]) self1).2 in
  Direct.solver self1
    = [ EqI (IntVar "note_0_1") (IntVal 60);
        EqI (IntVar "note_0_2") (IntVal 62) ] ∧
  Direct.solver self2
    = [ EqI (IntVar "note_0_1") (IntVal 60);
        EqI (IntVar "note_0_2") (IntVal 62);
        EqI (IntVar "note_0_1") (IntVal 60);
        EqI (IntVar "note_0_2") (IntVal 62) ].
Proof. split; reflexivity. Qed.

(** ** Harmony *)

(** C3: the direct checker reports "Highly unusual dissonance in measure
    i" for the i-th harmonic fact exactly when the fact has three or more
    distinct pitch classes and 1, 6 and 10 are all intervals from one of
    its pitch classes up to a larger one, reduced modulo 12. A fact with
    fewer than three pitch classes is not reported; the fact of pitch
    classes 0, 1, 6, 10 is. *)
Theorem C3_dissonance_signature (score : Score) (self : Direct.MozartChecker)
    (key : Z) (ms : list (list (list Z))) :
  analyze_key score = Return key →
  measures score = Return ms →
  ∃ violations,
    Direct.check_harmony score self = (Return violations, self) ∧
    ∀ i chord_pcs, vertical_sonorities ms !! i = Some chord_pcs →
      (flagged_dissonance violations i ↔ harsh_signature chord_pcs) ∧
      ((size chord_pcs < 3)%nat → ¬ flagged_dissonance violations i) ∧
      (chord_pcs = {[ 0; 1; 6; 10 ]} → flagged_dissonance violations i).
Proof.
  intros Hkey Hms. eexists.
  split; [by apply (check_harmony_unfold score self key ms)|].
  intros i chord_pcs Hi.
  pose proof (check_harmony_loop_flagged (key `mod` 12) _ i chord_pcs Hi)
    as Hflag.
  split; [done|]. split.
  - intros Hsize. rewrite Hflag. intros [H3 _]. lia.
  - intros ->. apply Hflag, harsh_spec. by vm_compute.
Qed.

Lemma C3_dissonance_signature_witness :
  ∃ violations,
    Direct.check_harmony harsh_chord_score Direct.init
      = (Return violations, Direct.init) ∧
    flagged_dissonance violations 0 ∧
    violations = ["Highly unusual dissonance in measure 0"].
Proof.
  destruct (C3_dissonance_signature harsh_chord_score Direct.init 0
              [[[0; 1; 6; 10]]] eq_refl eq_refl)
    as (violations & Hrun & Hfacts).
  exists violations. split; [done|]. split.
  - apply (Hfacts 0%nat {[ 0; 1; 6; 10 ]}); by vm_compute.
  - by injection Hrun as <-.
Defined.

(** C10: in the SMT variant the condition that would set
    [harsh_dissonance] is false on every interval constant, every harmony
    alias is defined as [Not(False)], the joint formula is satisfiable, a
    solver that is sound on [unsat] does not answer [unsat], and
    [check_harmony] returns the empty list whenever music21 yields the key
    and the measures; it never returns a diagnostic. *)
Theorem C10_smt_harmony_empty (check : list formula → CheckSatResult)
    (score : Score) :
  unsat_sound check →
  (∀ x, SMT.harsh_test (IntVar x) = Return false) ∧
  (∀ violations,
     SMT.check_harmony check score = Return violations → violations = []) ∧
  (∀ key ms,
     analyze_key score = Return key → measures score = Return ms →
     (∃ s cd,
        SMT.build_harmony 0 (vertical_sonorities ms) [] [] = Return (s, cd) ∧
        (∀ p q, EqB p q ∈ s → q = FNot (BoolVal false)) ∧
        satisfiable s ∧ check s ≠ unsat) ∧
     SMT.check_harmony check score = Return []).
Proof.
  intros Hsound. pose proof (smt_check_harmony_cases check score Hsound) as Hc.
  split; [exact harsh_test_var|]. split.
  - intros violations Hv.
    destruct (analyze_key score), (measures score); congruence.
  - intros key ms Hkey Hms. rewrite Hkey, Hms in Hc. split; [|done].
    destruct (build_harmony_spec 0 (vertical_sonorities ms) [] [])
      as (s & cd & Hb & Hs).
    exists s, cd. split; [done|].
    pose proof (harmony_formula_satisfiable _ s cd Hb) as Hsat.
    split; [|split; [done|]].
    + intros p q Hf.
      destruct (Hs _ Hf) as [Hin|(k & pcs & _ & Hin)];
        [by apply elem_of_nil in Hin|].
      by apply chord_assertions_alias in Hin.
    + intros Hu. by destruct (Hsound s Hu).
Qed.

Lemma C10_smt_harmony_empty_witness :
  SMT.check_harmony unit_solver harsh_chord_score = Return [] ∧
  (Direct.check_harmony harsh_chord_score Direct.init).1
    = Return ["Highly unusual dissonance in measure 0"].
Proof.
  split; [|reflexivity].
  apply (C10_smt_harmony_empty unit_solver harsh_chord_score unit_solver_sound)
    with (key := 0) (ms := [[[0; 1; 6; 10]]]); reflexivity.
Defined.

(** ** The verdict *)

Section verdict.

Lemma direct_analysis_verdict score self valid violations self' :
  Direct.analysis score self = (Return (valid, violations), self') →
  valid = bool_decide (length violations ≤ violation_threshold)%nat.
Proof.
  unfold Direct.analysis, Direct.bind, Direct.lift, Direct.ret.
  destruct (extract_voice_pairs score) as [vp|e]; [|done].
  rewrite check_voice_leading_unfold.
  destruct (Direct.check_harmony score _) as [[hv|e] s]; [|done].
  by intros [= <- <- _].
Qed.

Lemma smt_analysis_verdict check score valid violations :
  SMT.analysis check score = Return (valid, violations) →
  valid = bool_decide (length violations ≤ violation_threshold)%nat.
Proof.
  unfold SMT.analysis.
  destruct (extract_voice_pairs score) as [vp|e]; [|done].
  destruct (SMT.check_harmony check score) as [hv|e]; [|done].
  by intros [= <- <-].
Qed.

Lemma direct_analysis_raises score self m :
  direct_raises score m → (Direct.analysis score self).1 = Raise m.
Proof.
  unfold Direct.analysis, Direct.bind, Direct.lift.
  intros [->|[[vp ->] Hh]]; [done|].
  rewrite check_voice_leading_unfold.
  match goal with
  | |- context [Direct.check_harmony score ?s] =>
      specialize (Hh s); destruct (Direct.check_harmony score s) as [[hv|e] s']
  end; simpl in *; congruence.
Qed.

Lemma smt_analysis_raises check score m :
  smt_raises check score m → SMT.analysis check score = Raise m.
Proof.
  unfold SMT.analysis. intros [->|[[vp ->] ->]]; done.
Qed.

End verdict.

(** C4 as stated fails on the error-catching path: for a score on which
    key analysis raises, [verify_piece] returns [False] with a single
    string, and one is at most three. *)
Lemma C4_counterexample :
  ∃ valid violations,
    (Direct.verify_piece keyless_score Direct.init).1
      = Return (valid, violations) ∧
    ¬ (valid = true ↔ (length violations ≤ 3)%nat).
Proof.
  exists false, [error_message "failed to get likely keys for Stream component"].
  split; [reflexivity|]. simpl. intros [_ H]. by specialize (H ltac:(lia)).
Qed.

(** C4, amended: when the analysis completes without an exception, the
    returned [valid] is true exactly when at most three violations are
    returned; four violations give [False] and three give [True]. On the
    error-catching path [valid] is [False] and the list is the single
    "Analysis error" string. *)
Theorem C4_threshold_invariant (check : list formula → CheckSatResult)
    (score : Score) (self : Direct.MozartChecker) :
  (∃ valid violations self',
     Direct.verify_piece score self = (Return (valid, violations), self') ∧
     match (Direct.analysis score self).1 with
     | Return _ => valid = true ↔ (length violations ≤ 3)%nat
     | Raise e => valid = false ∧ violations = [error_message e]
     end) ∧
  (∃ valid violations,
     SMT.verify_piece check score = (valid, violations) ∧
     match SMT.analysis check score with
     | Return _ => valid = true ↔ (length violations ≤ 3)%nat
     | Raise e => valid = false ∧ violations = [error_message e]
     end) ∧
  (Direct.verify_piece (melody [60; 85; 60; 85; 60]) Direct.init).1
    = Return (false, [ "Unusual leap (25 semitones) at position 0";
                       "Unusual leap (25 semitones) at position 1";
                       "Unusual leap (25 semitones) at position 2";
                       "Unusual leap (25 semitones) at position 3" ]) ∧
  (Direct.verify_piece (melody [60; 85; 60; 85]) Direct.init).1
    = Return (true, [ "Unusual leap (25 semitones) at position 0";
                      "Unusual leap (25 semitones) at position 1";
                      "Unusual leap (25 semitones) at position 2" ]).
Proof.
  split; [|split; [|split; reflexivity]].
  - unfold Direct.verify_piece, Direct.try_except.
    destruct (Direct.analysis score self) as [[[valid violations]|e] self'] eqn:E.
    + exists valid, violations, self'. split; [done|]. simpl.
      rewrite (direct_analysis_verdict _ _ _ _ _ E).
      apply bool_decide_eq_true.
    + by exists false, [error_message e], self'.
  - unfold SMT.verify_piece.
    destruct (SMT.analysis check score) as [[valid violations]|e] eqn:E.
    + exists valid, violations. split; [done|].
      rewrite (smt_analysis_verdict _ _ _ _ E).
      apply bool_decide_eq_true.
    + by exists false, [error_message e].
Qed.

(** C5: when fact extraction or constraint evaluation raises an exception
    with message [m], [verify_piece] returns
    [(False, ["Analysis error: " + m])] and raises nothing, in both
    variants. *)
Theorem C5_error_path (check : list formula → CheckSatResult)
    (score : Score) (self : Direct.MozartChecker) (m : string) :
  (direct_raises score m →
   ∃ self',
     Direct.verify_piece score self
     = (Return (false, ["Analysis error: " +:+ m]), self')) ∧
  (smt_raises check score m →
   SMT.verify_piece check score = (false, ["Analysis error: " +:+ m])).
Proof.
  split.
  - intros H. pose proof (direct_analysis_raises score self m H) as E.
    unfold Direct.verify_piece, Direct.try_except.
    destruct (Direct.analysis score self) as [[r|e] self']; simpl in E; [done|].
    injection E as ->. by exists self'.
  - intros H. unfold SMT.verify_piece.
    by rewrite (smt_analysis_raises check score m H).
Qed.

Lemma C5_error_path_witness :
  (∃ self',
     Direct.verify_piece keyless_score Direct.init
     = (Return (false, ["Analysis error: failed to get likely keys for Stream component"]),
        self')) ∧
  SMT.verify_piece unit_solver keyless_score
  = (false, ["Analysis error: failed to get likely keys for Stream component"]).
Proof.
  destruct (C5_error_path unit_solver keyless_score Direct.init
              "failed to get likely keys for Stream component") as [Hd Hs].
  split.
  - apply Hd. right. split; [by eexists|]. intros self. reflexivity.
  - apply Hs. right. split; [by eexists|]. reflexivity.
Defined.

(** * Further properties of the code *)

(** ** Fact extraction *)

Section extraction.

Lemma part_pairs_length (notes : list (Z * Q)) :
  length (part_pairs notes) = (length notes - 1)%nat.
Proof. unfold part_pairs. by rewrite length_fmap, length_seq. Qed.

Lemma part_pairs_lookup (notes : list (Z * Q)) (k : nat) (a b : Z * Q) :
  notes !! k = Some a → notes !! S k = Some b →
  part_pairs notes !! k = Some (a.1, b.1, a.2).
Proof.
  intros Ha Hb. unfold part_pairs. rewrite list_lookup_fmap.
  apply lookup_lt_Some in Hb as Hlen.
  rewrite lookup_seq_lt by lia. simpl. by rewrite Ha, Hb.
Qed.

Lemma strongly_sorted_head_le (l : list Z) (x y : Z) :
  StronglySorted Z.le l → head l = Some x → y ∈ l → x ≤ y.
Proof.
  intros Hs Hx Hy. destruct l as [|z l]; [done|]. injection Hx as ->.
  apply StronglySorted_inv in Hs as [_ Hall].
  apply elem_of_cons in Hy as [->|Hy]; [done|].
  rewrite Forall_forall in Hall. by apply Hall.
Qed.

Lemma strongly_sorted_last_ge (l : list Z) (x y : Z) :
  StronglySorted Z.le l → last l = Some x → y ∈ l → y ≤ x.
Proof.
  intros Hs Hx Hy. induction Hs as [|z l Hs IH Hall]; [done|].
  destruct l as [|z' l].
  - injection Hx as <-. apply list_elem_of_singleton in Hy as ->. done.
  - rewrite last_cons_cons in Hx.
    apply elem_of_cons in Hy as [->|Hy]; [|by apply IH].
    rewrite Forall_forall in Hall.
    apply Hall, last_Some_elem_of, Hx.
Qed.

End extraction.

(** X1: the voice pairs of a part are its adjacent effective notes: there
    is one pair fewer than there are notes, and pair [k] carries the pitch
    of note [k], the pitch of note [k + 1] and the duration of note [k]. *)
Theorem X1_part_pairs_adjacent (notes : list (Z * Q)) :
  length (part_pairs notes) = (length notes - 1)%nat ∧
  ∀ k a b, notes !! k = Some a → notes !! S k = Some b →
    part_pairs notes !! k = Some (a.1, b.1, a.2).
Proof.
  split; [apply part_pairs_length|]. intros k a b. apply part_pairs_lookup.
Qed.

Lemma X1_part_pairs_adjacent_witness :
  length (part_pairs [(60, 1%Q); (64, 2%Q); (67, 1 # 2)]) = 2%nat ∧
  part_pairs [(60, 1%Q); (64, 2%Q); (67, 1 # 2)] !! 1%nat
    = Some (64, 67, 2%Q).
Proof.
  destruct (X1_part_pairs_adjacent [(60, 1%Q); (64, 2%Q); (67, 1 # 2)])
    as [Hlen Hk].
  split; [exact Hlen|].
  exact (Hk 1%nat (64, 2%Q) (67, 1 # 2) eq_refl eq_refl).
Defined.

(** X2: when [score.parts] is available, extraction succeeds and the
    number of voice pairs is the sum over the parts of the number of
    effective notes less one; a part with no or one effective note adds
    nothing, and no pair joins two parts. *)
Theorem X2_voice_pair_count (score : Score) (ps : list (list event)) :
  parts score = Return ps →
  ∃ voice_pairs,
    extract_voice_pairs score = Return voice_pairs ∧
    length voice_pairs
    = sum_list ((λ part, length (part_notes part) - 1)%nat <$> ps).
Proof.
  intros Hps. unfold extract_voice_pairs. rewrite Hps. eexists. split; [done|].
  induction ps as [|part ps' IH] in |- *; [done|].
  rewrite fmap_cons. cbn [mjoin list_join sum_list sum_list_with].
  rewrite length_app. simpl. rewrite part_pairs_length.
  f_equal. apply IH.
Qed.

Lemma X2_voice_pair_count_witness :
  ∃ voice_pairs,
    extract_voice_pairs
      (mkScore (Return [[Note 60 1; Note 62 1]; [Note 48 1]; []; [Note 72 1; Note 74 1]])
               (Return 60) (Return []))
    = Return voice_pairs ∧
    length voice_pairs = 2%nat.
Proof.
  exact (X2_voice_pair_count
           (mkScore (Return [[Note 60 1; Note 62 1]; [Note 48 1]; []; [Note 72 1; Note 74 1]])
                    (Return 60) (Return []))
           _ eq_refl).
Defined.

(** X3: a chord of two or more pitches contributes two effective notes,
    its lowest pitch and then its highest pitch, both with the chord's
    duration; so a part holding only that chord yields one voice pair,
    from the lowest to the highest pitch of the chord. *)
Theorem X3_chord_outer_voices (ps : list Z) (d : Q) :
  (2 ≤ length ps)%nat →
  ∃ lo hi,
    effective_notes (Chord ps d) = [(lo, d); (hi, d)] ∧
    lo ∈ ps ∧ hi ∈ ps ∧ (∀ p, p ∈ ps → lo ≤ p ≤ hi) ∧
    ∀ key ms,
      extract_voice_pairs (mkScore (Return [[Chord ps d]]) key ms)
      = Return [(lo, hi, d)].
Proof.
  intros Hlen. unfold effective_notes.
  pose proof (merge_sort_Permutation Z.le ps) as Hperm.
  pose proof (StronglySorted_merge_sort Z.le ps) as Hsorted.
  assert (length (merge_sort Z.le ps) = length ps) as Hl by by rewrite Hperm.
  rewrite bool_decide_eq_true_2 by lia.
  destruct (head (merge_sort Z.le ps)) as [lo|] eqn:Hhd;
    [|apply head_None in Hhd; rewrite Hhd in Hl; simpl in Hl; lia].
  destruct (last (merge_sort Z.le ps)) as [hi|] eqn:Hla;
    [|apply last_None in Hla; rewrite Hla in Hl; simpl in Hl; lia].
  exists lo, hi. simpl. split; [done|].
  assert (lo ∈ ps) as Hlo.
  { rewrite <- Hperm. apply head_Some in Hhd as [l' ->]. constructor. }
  assert (hi ∈ ps) as Hhi.
  { rewrite <- Hperm. by apply last_Some_elem_of. }
  split; [done|]. split; [done|]. split.
  - intros p Hp. rewrite <- Hperm in Hp. split.
    + by apply (strongly_sorted_head_le (merge_sort Z.le ps)).
    + by apply (strongly_sorted_last_ge (merge_sort Z.le ps)).
  - intros key ms. unfold extract_voice_pairs. simpl.
    unfold part_notes. simpl. rewrite bool_decide_eq_true_2 by lia.
    by rewrite Hhd, Hla.
Qed.

Lemma X3_chord_outer_voices_witness :
  ∃ lo hi,
    effective_notes (Chord [67; 48; 76; 60] 2) = [(lo, 2%Q); (hi, 2%Q)] ∧
    lo = 48 ∧ hi = 76.
Proof.
  destruct (X3_chord_outer_voices [67; 48; 76; 60] 2 ltac:(simpl; lia))
    as (lo & hi & Hn & _).
  exists lo, hi. split; [exact Hn|].
  by injection Hn as <- <-.
Defined.

(** ** Voice leading, direct checker *)

Section direct_more.

Import Direct.

Lemma dur_short_spec (d : Q) : dur_ge_1 d = false ↔ (d < 1)%Q.
Proof.
  rewrite <- not_true_iff_false, dur_ge_1_spec.
  split; [apply Qnot_le_lt | apply Qlt_not_le].
Qed.

Lemma check_voice_leading_loop_eq i voice_pairs slv violations :
  check_voice_leading_loop i voice_pairs slv violations =
  (slv ++ mjoin (imap (λ k f, note_assertions (i + k) f.1.1 f.1.2) voice_pairs),
   violations ++ omap id (imap (λ k, leap_diagnostic (i + k)) voice_pairs)).
Proof.
  revert i slv violations.
  induction voice_pairs as [|[[n1 n2] d] rest IH]; intros i slv violations.
  - simpl. by rewrite !app_nil_r.
  - cbn [check_voice_leading_loop]. rewrite IH, !imap_cons, Nat.add_0_r.
    cbn [mjoin list_join omap list_omap fst snd id].
    rewrite (imap_ext _ ((λ k f, note_assertions (i + k) f.1.1 f.1.2) ∘ S) rest)
      by (intros; simpl; by rewrite Nat.add_succ_r).
    rewrite (imap_ext _ ((λ k, leap_diagnostic (i + k)) ∘ S) rest)
      by (intros; simpl; by rewrite Nat.add_succ_r).
    rewrite <- !app_assoc.
    by destruct (leap_diagnostic i (n1, n2, d)); rewrite <- ?app_assoc.
Qed.

Lemma length_omap_le {A B} (f : A → option B) (l : list A) :
  (length (omap f l) ≤ length l)%nat.
Proof.
  induction l as [|x l IH]; [done|]. csimpl. destruct (f x); simpl; lia.
Qed.

End direct_more.

(** X4: in the direct checker a voice pair whose first note is shorter
    than a quarter note gets no diagnostic exactly when its interval is at
    most 24, or is 28 or 31, or is one of 29, 31, 36, 41, or the first
    note is shorter than 0.25 quarter notes. So below 0.25 no interval is
    ever reported. *)
Theorem X4_short_regime (voice_pairs : list (Z * Z * Q))
    (self : Direct.MozartChecker) (k : nat) (note1 note2 : Z) (duration : Q) :
  voice_pairs !! k = Some (note1, note2, duration) →
  (duration < 1)%Q →
  ∃ violations self',
    Direct.check_voice_leading voice_pairs self = (Return violations, self') ∧
    (¬ flagged_leap violations k ↔
     Z.abs (note2 - note1) ≤ 24
     ∨ Z.abs (note2 - note1) ∈ [28; 31]
     ∨ Z.abs (note2 - note1) ∈ [29; 31; 36; 41]
     ∨ (duration < 1 # 4)%Q) ∧
    ((duration < 1 # 4)%Q → ¬ flagged_leap violations k).
Proof.
  intros Hk Hd.
  destruct (check_voice_leading_flagged voice_pairs self k _ Hk)
    as (violations & self' & Hrun & Hflag).
  exists violations, self'. split; [done|].
  rewrite Hflag, <- eq_None_not_Some, leap_diagnostic_None.
  apply dur_short_spec in Hd as Hshort. rewrite Hshort.
  split; [|by intros ?; right; right; right].
  split.
  - intros [H|[H|[H|H]]]; [by left| |by right; right; left|by right; right; right].
    set_unfold. destruct_or!; try done; [left; lia..| |];
      right; left; set_unfold; eauto.
  - intros [H|[H|[H|H]]]; [by left| |by right; right; left|by right; right; right].
    right; left. set_unfold. destruct_or!; eauto 10.
Qed.

Lemma X4_short_regime_witness :
  ∃ violations self',
    Direct.check_voice_leading [(60, 100, 1 # 8); (60, 90, 1 # 2)] Direct.init
      = (Return violations, self') ∧
    ¬ flagged_leap violations 0.
Proof.
  destruct (X4_short_regime [(60, 100, 1 # 8); (60, 90, 1 # 2)] Direct.init
              0 60 100 (1 # 8) eq_refl eq_refl)
    as (violations & self' & Hrun & _ & Hfast).
  exists violations, self'. split; [exact Hrun|]. by apply Hfast.
Defined.

(** X5: [check_voice_leading] of the direct checker returns the
    diagnostics of its iterations in increasing position, at most one per
    voice pair, and appends to [self.solver] the two note assertions of
    every pair, in order, after what the solver already held. *)
Theorem X5_check_voice_leading_closed_form (voice_pairs : list (Z * Z * Q))
    (self : Direct.MozartChecker) :
  Direct.check_voice_leading voice_pairs self
  = (Return (omap id (imap Direct.leap_diagnostic voice_pairs)),
     Direct.mkChecker
       (Direct.solver self ++
        mjoin (imap (λ k f, Direct.note_assertions k f.1.1 f.1.2) voice_pairs)))
  ∧ (length (omap id (imap Direct.leap_diagnostic voice_pairs))
     ≤ length voice_pairs)%nat.
Proof.
  split.
  - rewrite check_voice_leading_unfold, check_voice_leading_loop_eq. done.
  - etrans; [apply length_omap_le|]. by rewrite length_imap.
Qed.

(** ** Voice leading, SMT checker *)

Section smt_more.

Lemma smt_acceptable_spec (n1 n2 : Z) (d : Q) :
  smt_acceptable n1 n2 d = true ↔
  if dur_ge_1 d
  then Z.abs (n2 - n1) ≤ 12 ∨ Z.abs (n2 - n1) = 19 ∨ Z.abs (n2 - n1) = 24
  else Z.abs (n2 - n1) ≤ 24 ∨ Z.abs (n2 - n1) ∈ [29; 31; 36; 41].
Proof.
  unfold smt_acceptable, SMT.is_arpeggiation_context,
    SMT.arpeggio_context_intervals.
  destruct (dur_ge_1 d);
    rewrite !orb_true_iff, ?andb_true_iff, !bool_decide_eq_true;
    set_unfold; split; intros; destruct_or?; destruct_and?;
    first [ lia | tauto | (left; left; lia) | (left; right; lia)
          | (right; lia) | (right; split; [lia | tauto]) | idtac ].
Qed.

(** Any interpretation of the four assertions of a fact gives the interval
    constant the fact's interval and the alias the value of the
    acceptance formula. *)
Lemma voice_leading_assertions_alias m i n1 n2 d :
  Forall (λ f, eval m f = true) (SMT.voice_leading_assertions i (n1, n2, d)) →
  ival m (SMT.interval_name i) = Z.abs (n2 - n1) ∧
  bval m (SMT.voice_leading_name i) = smt_acceptable n1 n2 d.
Proof.
  unfold SMT.voice_leading_assertions. intros Hall.
  apply Forall_cons in Hall as [H1 Hall]. apply Forall_cons in Hall as [H2 Hall].
  apply Forall_cons in Hall as [H3 Hall]. apply Forall_cons in Hall as [H4 _].
  cbn [eval eval_term] in H1, H2, H3, H4.
  apply bool_decide_eq_true in H1, H2, H3.
  rewrite H1, H2 in H3. split; [done|].
  rewrite (eval_acceptable_intervals m _ n1 n2 d H3) in H4.
  by apply Bool.eqb_prop in H4.
Qed.

Lemma str_in_char_absent (c : ascii) (t : string) :
  str_forall (λ a, a ≠ c) t → str_in (String c EmptyString) t = false.
Proof.
  induction t as [|a t IH]; [done|]. intros [Ha Ht].
  rewrite str_in_cons, (IH Ht), orb_false_r. simpl.
  destruct (ascii_dec c a); [by subst|done].
Qed.

Lemma str_in_char_present (c : ascii) (s t : string) :
  str_in (String c EmptyString) (s +:+ String c t) = true.
Proof.
  apply str_in_app_r. rewrite str_in_cons. simpl.
  destruct (ascii_dec c c) as [_|Hne]; [by destruct t | by destruct Hne].
Qed.

(** [split] returns as last field what follows the last separator. *)
Lemma split_last_app (c : ascii) (s t : string) :
  str_forall (λ a, a ≠ c) t → split_last c (s +:+ String c t) = t.
Proof.
  intros Ht. induction s as [|x s IH].
  - change ("" +:+ String c t) with (String c t). simpl.
    rewrite (str_in_char_absent c t Ht). by rewrite bool_decide_eq_true_2.
  - change (String x s +:+ String c t) with (String x (s +:+ String c t)).
    cbn [split_last]. by rewrite str_in_char_present.
Qed.

Lemma split_last_voice_leading_name (i : nat) :
  split_last "_" (SMT.voice_leading_name i) = pretty i.
Proof.
  unfold SMT.voice_leading_name.
  change ("voice_leading_" +:+ pretty i)
    with ("voice_leading" +:+ String "_" (pretty i)).
  apply split_last_app, pretty_nat_no_underscore.
Qed.


End smt_more.

(** X6: in every interpretation that satisfies the four assertions the SMT
    variant adds for a voice pair, the alias [voice_leading_i] is true
    exactly when the interval is at most 12, or 19, or 24 for a first note
    of a quarter note or more, and at most 24 or one of 29, 31, 36, 41
    otherwise; the arpeggiation-context test changes nothing. *)
Theorem X6_alias_semantics (m : interp) (i : nat) (note1 note2 : Z)
    (duration : Q) :
  Forall (λ f, eval m f = true)
         (SMT.voice_leading_assertions i (note1, note2, duration)) →
  ival m (SMT.interval_name i) = Z.abs (note2 - note1) ∧
  (bval m (SMT.voice_leading_name i) = true ↔
   if dur_ge_1 duration
   then Z.abs (note2 - note1) ≤ 12 ∨ Z.abs (note2 - note1) = 19
        ∨ Z.abs (note2 - note1) = 24
   else Z.abs (note2 - note1) ≤ 24
        ∨ Z.abs (note2 - note1) ∈ [29; 31; 36; 41]).
Proof.
  intros Hall.
  destruct (voice_leading_assertions_alias m i note1 note2 duration Hall)
    as [Hiv Halias].
  split; [done|]. rewrite Halias. apply smt_acceptable_spec.
Qed.

Lemma X6_alias_semantics_witness :
  ival (voice_leading_model [(60, 88, 2%Q)]) (SMT.interval_name 0) = 28 ∧
  bval (voice_leading_model [(60, 88, 2%Q)]) (SMT.voice_leading_name 0) ≠ true.
Proof.
  destruct (X6_alias_semantics (voice_leading_model [(60, 88, 2%Q)]) 0 60 88 2)
    as [Hiv Halias].
  - repeat constructor.
  - split; [exact Hiv|]. intros H. apply Halias in H. simpl in H. lia.
Defined.

(** X7: the acceptance formula of the SMT variant is at least as strict
    as the direct checker: whenever the alias of a voice pair is true in
    an interpretation of its assertions, the direct checker emits no
    diagnostic for that pair, at any position. *)
Theorem X7_smt_accepts_implies_direct_accepts (m : interp) (i k : nat)
    (note1 note2 : Z) (duration : Q) :
  Forall (λ f, eval m f = true)
         (SMT.voice_leading_assertions i (note1, note2, duration)) →
  bval m (SMT.voice_leading_name i) = true →
  Direct.leap_diagnostic k (note1, note2, duration) = None.
Proof.
  intros Hall Htrue.
  destruct (voice_leading_assertions_alias m i note1 note2 duration Hall)
    as [_ Halias].
  rewrite Halias in Htrue. apply smt_acceptable_spec in Htrue.
  apply leap_diagnostic_None.
  destruct (dur_ge_1 duration); set_unfold; destruct_or!;
    first [ (left; lia) | (right; left; set_unfold; tauto)
          | (right; right; left; set_unfold; tauto) ].
Qed.

Lemma X7_smt_accepts_implies_direct_accepts_witness :
  Direct.leap_diagnostic 5 (60, 84, 2%Q) = None.
Proof.
  apply (X7_smt_accepts_implies_direct_accepts
           (voice_leading_model [(60, 84, 2%Q)]) 0 5 60 84 2).
  - repeat constructor.
  - reflexivity.
Defined.

(** X8: the index the isolation loop reads back from a constraint name
    with [name.split('_')[-1]] is the decimal index the name was built
    from, so the loop rebuilds the same note constants. *)
Theorem X8_split_recovers_index (i : nat) :
  split_last "_" (SMT.voice_leading_name i) = pretty i ∧
  SMT.note_name (split_last "_" (SMT.voice_leading_name i)) "1"
  = SMT.note_name (pretty i) "1" ∧
  SMT.note_name (split_last "_" (SMT.voice_leading_name i)) "2"
  = SMT.note_name (pretty i) "2".
Proof. by rewrite split_last_voice_leading_name. Qed.



Lemma smt_verify_piece_readable (check : list formula → CheckSatResult)
    (score : Score) (ps : list (list event)) (key : Z)
    (ms : list (list (list Z))) :
  unsat_sound check →
  parts score = Return ps →
  analyze_key score = Return key →
  measures score = Return ms →
  SMT.verify_piece check score = (true, []).
Proof.
  intros Hsound Hps Hkey Hms.
  pose proof (smt_check_harmony_cases check score Hsound) as Hh.
  rewrite Hkey, Hms in Hh.
  unfold SMT.verify_piece, SMT.analysis, extract_voice_pairs.
  rewrite Hps, Hh, smt_check_voice_leading_nil by done. done.
Qed.

(** X10: the SMT checker accepts every score music21 can read: when
    [score.parts], the key and the measures are available, [verify_piece]
    returns [(True, [])], for any solver sound on [unsat]. *)
Theorem X10_smt_verify_piece_accepts (check : list formula → CheckSatResult)
    (score : Score) (ps : list (list event)) (key : Z)
    (ms : list (list (list Z))) :
  unsat_sound check →
  parts score = Return ps →
  analyze_key score = Return key →
  measures score = Return ms →
  SMT.verify_piece check score = (true, []).
Proof. apply smt_verify_piece_readable. Qed.

Lemma X10_smt_verify_piece_accepts_witness :
  SMT.verify_piece unit_solver (melody [60; 85; 60; 85; 60]) = (true, []) ∧
  (Direct.verify_piece (melody [60; 85; 60; 85; 60]) Direct.init).1
  = Return (false, [ "Unusual leap (25 semitones) at position 0";
                     "Unusual leap (25 semitones) at position 1";
                     "Unusual leap (25 semitones) at position 2";
                     "Unusual leap (25 semitones) at position 3" ]).
Proof.
  split; [|reflexivity].
  by apply (X10_smt_verify_piece_accepts unit_solver
              (melody [60; 85; 60; 85; 60])
              [(λ p, Note p 2) <$> [60; 85; 60; 85; 60]] 60 []
              unit_solver_sound).
Defined.

(** ** Harmony, direct checker *)

Section harmony_more.

Import Direct.

Lemma chord_pcs_of_range (pitches : list Z) (pc : Z) :
  pc ∈ chord_pcs_of pitches → 0 ≤ pc < 12.
Proof.
  unfold chord_pcs_of. rewrite elem_of_list_to_set, list_elem_of_fmap.
  intros (p & -> & _). by apply Z.mod_pos_bound.
Qed.

Lemma vertical_sonorities_elem (ms : list (list (list Z))) (pcs : gset Z) :
  pcs ∈ vertical_sonorities ms →
  pcs ≠ ∅ ∧ ∃ pitches, pitches ∈ mjoin ms ∧ pcs = chord_pcs_of pitches.
Proof.
  unfold vertical_sonorities. rewrite list_elem_of_filter, list_elem_of_fmap.
  intros [Hne (pitches & -> & Hin)]. eauto.
Qed.

(** Four elements of a set of at most three are not all different. *)
Lemma few_elements (X : gset Z) (w x y z : Z) :
  (size X ≤ 3)%nat → w ∈ X → x ∈ X → y ∈ X → z ∈ X →
  w = x ∨ w = y ∨ w = z ∨ x = y ∨ x = z ∨ y = z.
Proof.
  intros Hsize Hw Hx Hy Hz.
  destruct (decide (w = x)); [tauto|]. destruct (decide (w = y)); [tauto|].
  destruct (decide (w = z)); [tauto|]. destruct (decide (x = y)); [tauto|].
  destruct (decide (x = z)); [tauto|]. destruct (decide (y = z)); [tauto|].
  exfalso.
  assert (NoDup [w; x; y; z]) as Hnd.
  { rewrite !NoDup_cons, !not_elem_of_cons.
    repeat split; try done; try apply not_elem_of_nil. apply NoDup_nil_2. }
  assert (list_to_set [w; x; y; z] ⊆ X) as Hsub.
  { intros e He. rewrite elem_of_list_to_set, !elem_of_cons, elem_of_nil in He.
    destruct_or!; by subst. }
  apply subseteq_size in Hsub. rewrite size_list_to_set in Hsub by done.
  simpl in Hsub. lia.
Qed.

Lemma harsh_signature_four (pcs : gset Z) :
  (∀ pc, pc ∈ pcs → 0 ≤ pc < 12) → harsh_signature pcs → (4 ≤ size pcs)%nat.
Proof.
  intros Hrange (_ & (a1 & b1 & Ha1 & Hb1 & Hlt1 & E1)
                   & (a6 & b6 & Ha6 & Hb6 & Hlt6 & E6)
                   & (a10 & b10 & Ha10 & Hb10 & Hlt10 & E10)).
  pose proof (Hrange _ Ha1). pose proof (Hrange _ Hb1).
  pose proof (Hrange _ Ha6). pose proof (Hrange _ Hb6).
  pose proof (Hrange _ Ha10). pose proof (Hrange _ Hb10).
  rewrite Z.mod_small in E1, E6, E10 by lia.
  destruct (decide (size pcs ≤ 3)%nat) as [Hsize|]; [exfalso|lia].
  pose proof (few_elements pcs a10 b10 a1 b1 Hsize Ha10 Hb10 Ha1 Hb1).
  pose proof (few_elements pcs a10 b10 a6 b6 Hsize Ha10 Hb10 Ha6 Hb6).
  pose proof (few_elements pcs a10 b10 a1 a6 Hsize Ha10 Hb10 Ha1 Ha6).
  pose proof (few_elements pcs a10 b10 a1 b6 Hsize Ha10 Hb10 Ha1 Hb6).
  pose proof (few_elements pcs a10 b10 b1 a6 Hsize Ha10 Hb10 Hb1 Ha6).
  pose proof (few_elements pcs a10 b10 b1 b6 Hsize Ha10 Hb10 Hb1 Hb6).
  lia.
Qed.

Lemma check_harmony_loop_tonic t t' i chords violations :
  check_harmony_loop t i chords violations
  = check_harmony_loop t' i chords violations.
Proof.
  revert i violations. induction chords as [|pcs rest IH]; intros; [done|].
  cbn [check_harmony_loop]. apply IH.
Qed.

End harmony_more.

(** X11: the direct checker never reports a chord of three or fewer
    distinct pitch classes: the intervals 1, 6 and 10 cannot all occur
    among three pitch classes, so the test on [len(chord_pcs) >= 3] is
    met by no reported chord with exactly three. *)
Theorem X11_three_pitch_classes_never_flagged (score : Score)
    (self : Direct.MozartChecker) (key : Z) (ms : list (list (list Z))) :
  analyze_key score = Return key →
  measures score = Return ms →
  ∃ violations,
    Direct.check_harmony score self = (Return violations, self) ∧
    ∀ i chord_pcs, vertical_sonorities ms !! i = Some chord_pcs →
      (size chord_pcs ≤ 3)%nat → ¬ flagged_dissonance violations i.
Proof.
  intros Hkey Hms. eexists.
  split; [by apply (check_harmony_unfold score self key ms)|].
  intros i chord_pcs Hi Hsize.
  rewrite (check_harmony_loop_flagged (key `mod` 12) _ i chord_pcs Hi).
  intros Hharsh. apply harsh_signature_four in Hharsh; [lia|].
  apply list_elem_of_lookup_2, vertical_sonorities_elem in Hi
    as [_ (pitches & _ & ->)].
  intros pc. apply chord_pcs_of_range.
Qed.

Lemma X11_three_pitch_classes_never_flagged_witness :
  ∃ violations,
    Direct.check_harmony triad_score Direct.init
      = (Return violations, Direct.init) ∧
    ¬ flagged_dissonance violations 0.
Proof.
  destruct (X11_three_pitch_classes_never_flagged triad_score Direct.init
              60 [[[60; 64; 67]; [48; 60]]] eq_refl eq_refl)
    as (violations & Hrun & Hfacts).
  exists violations. split; [exact Hrun|].
  apply (Hfacts 0%nat (chord_pcs_of [60; 64; 67])); [reflexivity|].
  by vm_compute.
Defined.

(** X12: every harmonic fact is a non-empty set of pitch classes between
    0 and 11, so it has between 1 and 12 elements; negative pitches too
    are reduced into that range. *)
Theorem X12_harmonic_fact_range (ms : list (list (list Z)))
    (chord_pcs : gset Z) :
  chord_pcs ∈ vertical_sonorities ms →
  (∀ pc, pc ∈ chord_pcs → 0 ≤ pc < 12) ∧
  (1 ≤ size chord_pcs ≤ 12)%nat.
Proof.
  intros Hin. apply vertical_sonorities_elem in Hin
    as [Hne (pitches & _ & ->)].
  split; [intros pc; apply chord_pcs_of_range|]. split.
  - assert (size (chord_pcs_of pitches) ≠ 0%nat) as Hsize; [|lia].
    apply size_non_empty_iff. intros E. apply Hne. by apply leibniz_equiv.
  - assert (chord_pcs_of pitches ⊆ list_to_set (seqZ 0 12)) as Hsub.
    { intros pc Hpc. apply chord_pcs_of_range in Hpc.
      apply elem_of_list_to_set, elem_of_seqZ. lia. }
    apply subseteq_size in Hsub.
    rewrite size_list_to_set in Hsub by apply NoDup_seqZ.
    by rewrite length_seqZ in Hsub.
Qed.

Lemma X12_harmonic_fact_range_witness :
  (∀ pc, pc ∈ chord_pcs_of mixed_chord → 0 ≤ pc < 12) ∧
  (1 ≤ size (chord_pcs_of mixed_chord) ≤ 12)%nat.
Proof.
  apply (X12_harmonic_fact_range [[mixed_chord; []]]).
  apply list_elem_of_lookup_2 with 0%nat. by vm_compute.
Defined.

(** X13: the key does not enter the harmony verdict of the direct
    checker: every pitch class is in [allowed_pcs] whatever the tonic, and
    two scores with the same measures get the same diagnostics whatever
    their keys. *)
Theorem X13_harmony_ignores_key (score score' : Score)
    (self : Direct.MozartChecker) (key key' : Z) :
  analyze_key score = Return key →
  analyze_key score' = Return key' →
  measures score = measures score' →
  (Direct.check_harmony score self).1 = (Direct.check_harmony score' self).1 ∧
  ∀ pc, 0 ≤ pc < 12 → pc ∈ Direct.allowed_pcs (key `mod` 12).
Proof.
  intros Hkey Hkey' Hms. split; [|intros pc; apply allowed_pcs_all].
  unfold Direct.check_harmony, Direct.bind, Direct.lift, Direct.ret.
  rewrite Hkey, Hkey', Hms. destruct (measures score') as [ms|e]; [|done].
  simpl. f_equal. apply check_harmony_loop_tonic.
Qed.

Lemma X13_harmony_ignores_key_witness :
  (Direct.check_harmony harsh_chord_score Direct.init).1
  = (Direct.check_harmony
       (mkScore (Return []) (Return 66) (Return [[[0; 1; 6; 10]]]))
       Direct.init).1.
Proof.
  apply (X13_harmony_ignores_key harsh_chord_score
           (mkScore (Return []) (Return 66) (Return [[[0; 1; 6; 10]]]))
           Direct.init 0 66); reflexivity.
Defined.

(** ** The verdict, direct checker *)

(** X14: when music21 yields the parts, the key and the measures, the
    direct [verify_piece] returns every diagnostic, the leaps first and
    the dissonances after them, each group in its own order: the filter on
    the message texts removes nothing. [valid] compares their number
    with 3. *)
Theorem X14_verify_piece_returns_all (score : Score)
    (self : Direct.MozartChecker) (voice_pairs : list (Z * Z * Q))
    (key : Z) (ms : list (list (list Z))) :
  extract_voice_pairs score = Return voice_pairs →
  analyze_key score = Return key →
  measures score = Return ms →
  ∃ leaps dissonances self',
    Direct.check_voice_leading voice_pairs self = (Return leaps, self') ∧
    Direct.check_harmony score self' = (Return dissonances, self') ∧
    Direct.verify_piece score self
    = (Return (bool_decide (length (leaps ++ dissonances) ≤ 3)%nat,
               leaps ++ dissonances), self').
Proof.
  intros Hvp Hkey Hms. eexists _, _, _.
  split; [apply check_voice_leading_unfold|].
  split; [by apply (check_harmony_unfold score _ key ms)|].
  unfold Direct.verify_piece, Direct.try_except, Direct.analysis, Direct.bind,
    Direct.lift, Direct.ret.
  rewrite Hvp, check_voice_leading_unfold.
  rewrite (check_harmony_unfold score _ key ms Hkey Hms).
  by rewrite significant_violations_all.
Qed.

Lemma X14_verify_piece_returns_all_witness :
  ∃ leaps dissonances self',
    Direct.check_voice_leading [(60, 85, 2%Q)] Direct.init
      = (Return leaps, self') ∧
    Direct.check_harmony (mkScore (Return [[Note 60 2; Note 85 2]]) (Return 0)
                            (Return [[[0; 1; 6; 10]]])) self'
      = (Return dissonances, self') ∧
    Direct.verify_piece (mkScore (Return [[Note 60 2; Note 85 2]]) (Return 0)
                           (Return [[[0; 1; 6; 10]]])) Direct.init
    = (Return (bool_decide (length (leaps ++ dissonances) ≤ 3)%nat,
               leaps ++ dissonances), self').
Proof.
  exact (X14_verify_piece_returns_all
           (mkScore (Return [[Note 60 2; Note 85 2]]) (Return 0)
              (Return [[[0; 1; 6; 10]]]))
           Direct.init [(60, 85, 2%Q)] 0 [[[0; 1; 6; 10]]]
           eq_refl eq_refl eq_refl).
Defined.

(** X15: the verdict of the direct [verify_piece] does not depend on what
    [self.solver] holds, so a second analysis of a score by the same
    checker returns the same pair as the first, although the solver has
    grown in between. *)
Theorem X15_verdict_is_repeatable (score : Score)
    (self self' : Direct.MozartChecker) :
  (Direct.verify_piece score self).1 = (Direct.verify_piece score self').1 ∧
  (Direct.verify_piece score (Direct.verify_piece score self).2).1
  = (Direct.verify_piece score self).1.
Proof.
  split; apply verify_piece_ignores_solver.
Qed.

(** ** The batch driver *)

Section driver_facts.

Context {St : Type} (verify : Score → St → outcome (bool * list string) * St).

Lemma count_entries_cons test a l :
  count_entries test (a :: l)
  = ((if test a then 1 else 0) + count_entries test l)%nat.
Proof.
  unfold count_entries. rewrite filter_cons.
  destruct (test a); by case_decide.
Qed.

Lemma analyze_file_not_error f checker a :
  (analyze_file St verify f checker).1 = Return a → is_error a = false.
Proof.
  unfold analyze_file.
  destruct (parse f) as [score|]; [|done].
  destruct (analyze_key score); [|done].
  destruct (getTimeSignatures f); [|done].
  destruct (verify score checker) as [[[v vs]|] c]; [|done].
  destruct (measures score); [|done].
  by intros [= <-].
Qed.

Lemma analyze_loop_eq xml_files checker res :
  let entries := loop_entries St verify xml_files checker in
  (analyze_loop St verify xml_files checker res).1
  = mkResults (total_files res)
      (valid_files res + count_entries entry_valid entries)
      (files_with_violations res
       + count_entries (λ a, negb (entry_valid a) && negb (is_error a)) entries)
      (analyses res ++ entries).
Proof.
  revert checker res. induction xml_files as [|f rest IH]; intros checker res.
  - destruct res. simpl. unfold count_entries. simpl.
    by rewrite !Nat.add_0_r, app_nil_r.
  - cbn [analyze_loop loop_entries]. cbv zeta.
    rewrite !count_entries_cons.
    destruct (analyze_file St verify f checker) as [[a|e] c] eqn:E.
    + pose proof (analyze_file_not_error f checker a) as Hne.
      rewrite E in Hne. specialize (Hne eq_refl).
      cbn [entry_of fst snd]. rewrite Hne.
      destruct (entry_valid a); rewrite IH; cbn [total_files valid_files
        files_with_violations analyses negb andb]; rewrite <- app_assoc;
        f_equal; simpl; lia.
    + cbn [entry_of fst snd entry_valid is_error negb andb].
      rewrite IH. cbn [total_files valid_files files_with_violations analyses].
      rewrite <- app_assoc. f_equal; simpl; lia.
Qed.






End driver_facts.

Section direct_driver.

Lemma direct_analyze_file_state (f : score_file) (c c' : Direct.MozartChecker) :
  (analyze_file _ Direct.verify_piece f c).1
  = (analyze_file _ Direct.verify_piece f c').1.
Proof.
  unfold analyze_file.
  destruct (parse f) as [score|]; [|done].
  destruct (analyze_key score); [|done].
  destruct (getTimeSignatures f); [|done].
  pose proof (verify_piece_ignores_solver score c c') as E.
  destruct (Direct.verify_piece score c) as [[[v vs]|] d],
    (Direct.verify_piece score c') as [[[v' vs']|] d']; simpl in E;
    try discriminate E.
  - injection E as -> ->. by destruct (measures score).
  - by injection E as ->.
Qed.

Lemma direct_loop_entries (xml_files : list score_file)
    (c : Direct.MozartChecker) :
  loop_entries _ Direct.verify_piece xml_files c
  = (λ f, entry_of f (analyze_file _ Direct.verify_piece f Direct.init).1)
      <$> xml_files.
Proof.
  revert c. induction xml_files as [|f rest IH]; intros c; [done|].
  cbn [loop_entries fmap list_fmap]. rewrite IH.
  by rewrite (direct_analyze_file_state f c Direct.init).
Qed.

Lemma direct_single_file (f : score_file) :
  analyses (direct_analyze_mozart_works [f])
  = [entry_of f (analyze_file _ Direct.verify_piece f Direct.init).1].
Proof.
  unfold direct_analyze_mozart_works, analyze_mozart_works.
  by rewrite analyze_loop_eq.
Qed.

End direct_driver.


(** X17: in the batch run of the direct checker, where one checker and its
    solver serve all files, every file gets the entry it gets when it is
    analysed alone by a new checker. *)
Theorem X17_batch_is_file_by_file (xml_files : list score_file) :
  analyses (direct_analyze_mozart_works xml_files)
  = mjoin ((λ f, analyses (direct_analyze_mozart_works [f])) <$> xml_files).
Proof.
  trans ((λ f, entry_of f (analyze_file _ Direct.verify_piece f Direct.init).1)
           <$> xml_files).
  - unfold direct_analyze_mozart_works, analyze_mozart_works.
    rewrite analyze_loop_eq. cbn [analyses app]. apply direct_loop_entries.
  - induction xml_files as [|f rest IH]; [done|].
    rewrite !fmap_cons, direct_single_file.
    change (mjoin (?x :: ?l)) with (x ++ mjoin l).
    simpl. f_equal. exact IH.
Qed.





(** ** The solver of the direct checker *)

Section stale_solver.

Import Direct.

Lemma first_note_assertion_kept score self a b d rest :
  extract_voice_pairs score = Return ((a, b, d) :: rest) →
  (∀ f, f ∈ solver self → f ∈ solver (verify_piece score self).2) ∧
  EqI (IntVar ("note_" +:+ pretty 0%nat +:+ "_1")) (IntVal a)
    ∈ solver (verify_piece score self).2.
Proof.
  intros Hvp. rewrite (verify_piece_extracted score self _ Hvp).
  rewrite check_voice_leading_loop_eq. cbn [fst].
  split.
  - intros f Hf. apply elem_of_app. by left.
  - apply elem_of_app. right. rewrite imap_cons. cbn [mjoin list_join].
    apply elem_of_app. left. unfold note_assertions. simpl. constructor.
Qed.

End stale_solver.

(** X20: the solver the direct checker keeps is never checked, and need
    not stay satisfiable: once the same checker has analysed two scores
    whose first voice pairs start on different pitches, the solver holds
    two values for [note_0_1] and has no model. *)
Theorem X20_kept_solver_unsatisfiable (score score' : Score)
    (self : Direct.MozartChecker) (a b a' b' : Z) (d d' : Q)
    (rest rest' : list (Z * Z * Q)) :
  extract_voice_pairs score = Return ((a, b, d) :: rest) →
  extract_voice_pairs score' = Return ((a', b', d') :: rest') →
  a ≠ a' →
  ¬ satisfiable
      (Direct.solver
         (Direct.verify_piece score' (Direct.verify_piece score self).2).2).
Proof.
  intros Hvp Hvp' Hne [m Hm]. rewrite Forall_forall in Hm.
  destruct (first_note_assertion_kept score self a b d rest Hvp) as [_ H1].
  destruct (first_note_assertion_kept score'
              (Direct.verify_piece score self).2 a' b' d' rest' Hvp')
    as [Hkeep H2].
  apply Hkeep, Hm in H1. apply Hm in H2.
  cbn [eval eval_term] in H1, H2. apply bool_decide_eq_true in H1, H2.
  congruence.
Qed.

Lemma X20_kept_solver_unsatisfiable_witness :
  ¬ satisfiable
      (Direct.solver
         (Direct.verify_piece (melody [61; 62])
            (Direct.verify_piece (melody [60; 62]) Direct.init).2).2).
Proof.
  apply (X20_kept_solver_unsatisfiable (melody [60; 62]) (melody [61; 62])
           Direct.init 60 62 61 62 2 2 [] []); [reflexivity..|lia].
Defined.
